(** * TreadmillSync: the scenario generator and the telemetry link manager

    A shallow embedding of [services/randomWalk.ts] (the mean-reverting
    random walk), of the link manager that lives in [App.tsx] (the WebSocket
    handlers, [sendCommand], [addLog], the reconnect timers, the scenario
    loops) and of [ControlPanel.tsx]'s [handleChange].

    Numbers.  A JavaScript number is a double; its value is modelled by a
    rational ([Q]), without NaN, infinities or overflow.
    [getNextValueBinary64] is [getNextValue] with the rounding of every
    binary64 operation written out, for a rounding [fl] that is a
    parameter; [binary64] is the rounding itself (to nearest, ties to
    even), and what is said of the rounding step for every input is said
    of this function.  [getNextValue] is its instance at exact arithmetic,
    the real-number arithmetic the comments of the function describe; the
    loops call it, and the concrete inputs evaluated with it (8.25, 0.875,
    -0.25, 0.5, ...) are chosen so that binary floating point gives the
    same results.

    Host functions.  [Math.random], [Date.now], [parseFloat], [JSON.parse],
    [JSON.stringify], [Number.prototype.toString] and the [WebSocket]
    constructor belong to the JavaScript host.  A random draw and a clock
    reading are passed to the function that asks for them (one run of a
    handler reads the clock once); the others are variables of the sections
    below, so that every general statement holds for any host. *)

From Stdlib Require Import QArith Qround Qminmax Qpower Qabs ZArith Lia Lqa.
From Stdlib Require Import Ascii String.
From stdpp Require Import gmap strings list fin_maps pretty.

#[local] Set Warnings "-register-all".

(* ===================================================================== *)
(** ** Numbers *)
(* ===================================================================== *)

(** [x < y] on numbers, as a test. *)
Definition Qltb (x y : Q) : bool := negb (Qle_bool y x).

(** [Math.round]: the integer nearest to [x], a tie going to the integer
    closer to plus infinity. *)
Definition Math_round (x : Q) : Q := inject_Z (Qfloor (x + (1 # 2))).

(** [Math.pow(10, precision)] for an integral [precision]. *)
Definition Math_pow10 (precision : Z) : Q := (10 # 1) ^ precision.

(* ===================================================================== *)
(** ** services/randomWalk.ts *)
(* ===================================================================== *)

Definition reversionStrength : Q := 2 # 10.

(** Step 6 of [getNextValue]: [Math.round(next * factor) / factor] with
    [factor = Math.pow(10, precision)]. *)
Definition roundToPrecision (next : Q) (precision : Z) : Q :=
  let factor := Math_pow10 precision in
  (Math_round (next * factor) / factor)%Q.

(** [getNextValue(current, min, max, volatility, precision)]; [random] is the
    value [Math.random()] returns in step 3, a number of [0, 1). *)
Definition getNextValue (random : Q) (current min max volatility : Q)
    (precision : Z) : Q :=
  (* 1. Initialization *)
  let base := current in
  let base := if Qltb current min then min else base in
  let base := if Qltb max current then max else base in
  (* 2. Mean reversion *)
  let center := ((min + max) / (2 # 1))%Q in
  let drift := ((center - base) * reversionStrength)%Q in
  (* 3. Random noise *)
  let noise := ((random * (2 # 1) - 1) * volatility)%Q in
  (* 4. Next step *)
  let next := (base + drift + noise)%Q in
  (* 5. Hard clamp *)
  let next := Qmax min (Qmin max next) in
  (* 6. Rounding *)
  roundToPrecision next precision.

(** Rounding as the specification words it, for comparison with
    [roundToPrecision]: half away from zero at [10^precision] resolution,
    [sgn(x) * round-half-up(|x| * 10^p) / 10^p]. *)
Definition Qsgn (x : Q) : Q := inject_Z (Z.sgn (Qnum x)).

Definition roundHalfAwayFromZero (x : Q) (precision : Z) : Q :=
  let factor := Math_pow10 precision in
  (Qsgn x * inject_Z (Qfloor (Qabs x * factor + (1 # 2))) / factor)%Q.

(** The same rounding of a value that is scaled already, to an integer:
    [sgn(y) * round-half-up(|y|)]. *)
Definition roundHalfAway (y : Q) : Q :=
  (Qsgn y * inject_Z (Qfloor (Qabs y + (1 # 2))))%Q.

(** [y] is negative and lies exactly halfway between two integers: the
    values on which [Math.round] and [roundHalfAway] part. *)
Definition negativeHalfway (y : Q) : bool :=
  Qltb y 0 && Qeq_bool (y + (1 # 2)) (inject_Z (Qfloor (y + (1 # 2)))).

(** *** The same arithmetic in binary64

    A JavaScript number is a double.  [+], [-], [*] and [/] return the
    double nearest to the exact result: [fl] is that rounding, applied here
    after every operation and to the literal [0.2]; [pow10] is what the
    host's [Math.pow(10, precision)] returns.  Comparisons, [Math.max],
    [Math.min] and [Math.round] are exact on doubles, and the arguments are
    doubles already.  Values are finite: a run in which an operation
    overflows has no counterpart here.  The rounding itself is [binary64],
    with the concrete host below. *)
Section Binary64.
#[local] Open Scope Q_scope.

Variable fl : Q -> Q.
Variable pow10 : Z -> Q.

Definition roundToPrecisionBinary64 (next : Q) (precision : Z) : Q :=
  let factor := pow10 precision in
  fl (Math_round (fl (next * factor)) / factor).

Definition getNextValueBinary64 (random : Q) (current min max volatility : Q)
    (precision : Z) : Q :=
  (* 1. Initialization *)
  let base := current in
  let base := if Qltb current min then min else base in
  let base := if Qltb max current then max else base in
  (* 2. Mean reversion *)
  let center := fl (fl (min + max) / (2 # 1)) in
  let drift := fl (fl (center - base) * fl reversionStrength) in
  (* 3. Random noise *)
  let noise := fl (fl (fl (random * (2 # 1)) - 1) * volatility) in
  (* 4. Next step *)
  let next := fl (fl (base + drift) + noise) in
  (* 5. Hard clamp *)
  let next := Qmax min (Qmin max next) in
  (* 6. Rounding *)
  roundToPrecisionBinary64 next precision.

(** What the statements below use of rounding to the nearest double: it is
    monotone, it keeps zero, a double rounds to itself, and twice a double
    is a double. *)
Definition rounding : Prop :=
  (forall x y, x <= y -> fl x <= fl y)
  /\ fl 0 == 0
  /\ (forall x, fl (fl x) == fl x)
  /\ (forall x, fl x == x -> fl (x + x) == x + x).

End Binary64.

(** Exact arithmetic: no rounding at all. *)
Definition exact (x : Q) : Q := x.

(* ===================================================================== *)
(** ** JavaScript values *)
(* ===================================================================== *)

(** What [JSON.parse] returns, and [undefined] for what a property read
    can return besides. *)
Inductive jsval : Type :=
  | JUndefined
  | JNull
  | JBool (b : bool)
  | JNum (q : Q)
  | JStr (s : string)
  | JArr (l : list jsval)
  | JObj (m : gmap string jsval).

(** [v.k] for a [v] that is neither [null] nor [undefined].  None of the
    keys the handlers read is a property of a string, a number, a boolean
    or an array, so only an object can hold one. *)
Definition getProp (v : jsval) (k : string) : jsval :=
  match v with
  | JObj m => default JUndefined (m !! k)
  | _ => JUndefined
  end.

(** [a ?? b]. *)
Definition nullish (a b : jsval) : jsval :=
  match a with
  | JUndefined | JNull => b
  | _ => a
  end.

Infix "??" := nullish (at level 45, right associativity).

(** The truthiness [&&] tests. *)
Definition truthy (v : jsval) : bool :=
  match v with
  | JUndefined | JNull => false
  | JBool b => b
  | JNum q => negb (Qeq_bool q 0)
  | JStr s => negb (String.eqb s "")
  | JArr _ | JObj _ => true
  end.

(** [typeof v === 'object']. *)
Definition typeofObject (v : jsval) : bool :=
  match v with
  | JNull | JArr _ | JObj _ => true
  | _ => false
  end.

Definition isUndefined (v : jsval) : bool :=
  match v with
  | JUndefined => true
  | _ => false
  end.

(** [v === s] for a string literal [s]. *)
Definition strictEqStr (v : jsval) (s : string) : bool :=
  match v with
  | JStr t => String.eqb t s
  | _ => false
  end.

(* ===================================================================== *)
(** ** types.ts *)
(* ===================================================================== *)

Record TreadmillState := {
  speedKmh : Q;
  inclinePct : Q;
  timestamp : Z;
  isConnected : bool;
}.

Module Range.
Record t := { min : Q; max : Q; volatility : Q; updateInterval : Q }.
End Range.

Module ScenarioConfig.
Record t := { name : string; speed : Range.t; incline : Range.t }.
End ScenarioConfig.

Inductive WebSocketStatus := DISCONNECTED | CONNECTING | CONNECTED | ERROR.

Inductive LogType := info | error | success | tx.

Module LogEntry.
Record t := { timestamp : Z; message : string; type : LogType }.
End LogEntry.

(* ===================================================================== *)
(** ** App.tsx: the data the component holds *)
(* ===================================================================== *)

Definition WS_STATE_CONNECTING : Z := 0.
Definition WS_STATE_OPEN : Z := 1.
Definition WS_STATE_CLOSING : Z := 2.
Definition WS_STATE_CLOSED : Z := 3.

(** A [WebSocket] object: its [url] and [readyState] attributes and the
    texts handed to its [send], oldest first.  [wsUrl] is the value of the
    variable of that name in the [connectWebSocket] closure that created the
    socket and its four handlers. *)
Module WebSocket.
Record t := { url : string; readyState : Z; sent : list string; wsUrl : string }.
End WebSocket.

(** A callback handed to [setTimeout] and not run yet: its delay and the
    variables it closes over. *)
Module Timeout.
Record t := { delay : Z; ws : nat; wsUrl : string }.
End Timeout.

Module Command.
Record t := { speed : Q; incline : Q }.
End Command.

(** The [useState] cells and [useRef] boxes of [App] the link manager and
    the scenario loops use, with the sockets created so far (a socket is
    identified by its position in [sockets], so that [ws === wsRef.current]
    is equality of positions) and the pending timeouts, oldest first. *)
Record App := {
  wsStatus : WebSocketStatus;
  logs : list LogEntry.t;
  treadmillRef : TreadmillState;
  commandRef : Command.t;
  displayState : TreadmillState;
  wsRef : option nat;
  hasLoggedFirstMsg : bool;
  sockets : list WebSocket.t;
  timeouts : list Timeout.t;
}.

Definition withWsStatus (x : WebSocketStatus) (st : App) : App :=
  {| wsStatus := x; logs := logs st; treadmillRef := treadmillRef st;
     commandRef := commandRef st; displayState := displayState st;
     wsRef := wsRef st; hasLoggedFirstMsg := hasLoggedFirstMsg st;
     sockets := sockets st; timeouts := timeouts st |}.

Definition withLogs (x : list LogEntry.t) (st : App) : App :=
  {| wsStatus := wsStatus st; logs := x; treadmillRef := treadmillRef st;
     commandRef := commandRef st; displayState := displayState st;
     wsRef := wsRef st; hasLoggedFirstMsg := hasLoggedFirstMsg st;
     sockets := sockets st; timeouts := timeouts st |}.

Definition withTreadmillRef (x : TreadmillState) (st : App) : App :=
  {| wsStatus := wsStatus st; logs := logs st; treadmillRef := x;
     commandRef := commandRef st; displayState := displayState st;
     wsRef := wsRef st; hasLoggedFirstMsg := hasLoggedFirstMsg st;
     sockets := sockets st; timeouts := timeouts st |}.

Definition withCommandRef (x : Command.t) (st : App) : App :=
  {| wsStatus := wsStatus st; logs := logs st; treadmillRef := treadmillRef st;
     commandRef := x; displayState := displayState st;
     wsRef := wsRef st; hasLoggedFirstMsg := hasLoggedFirstMsg st;
     sockets := sockets st; timeouts := timeouts st |}.

Definition withDisplayState (x : TreadmillState) (st : App) : App :=
  {| wsStatus := wsStatus st; logs := logs st; treadmillRef := treadmillRef st;
     commandRef := commandRef st; displayState := x;
     wsRef := wsRef st; hasLoggedFirstMsg := hasLoggedFirstMsg st;
     sockets := sockets st; timeouts := timeouts st |}.

Definition withWsRef (x : option nat) (st : App) : App :=
  {| wsStatus := wsStatus st; logs := logs st; treadmillRef := treadmillRef st;
     commandRef := commandRef st; displayState := displayState st;
     wsRef := x; hasLoggedFirstMsg := hasLoggedFirstMsg st;
     sockets := sockets st; timeouts := timeouts st |}.

Definition withHasLoggedFirstMsg (x : bool) (st : App) : App :=
  {| wsStatus := wsStatus st; logs := logs st; treadmillRef := treadmillRef st;
     commandRef := commandRef st; displayState := displayState st;
     wsRef := wsRef st; hasLoggedFirstMsg := x;
     sockets := sockets st; timeouts := timeouts st |}.

Definition withSockets (x : list WebSocket.t) (st : App) : App :=
  {| wsStatus := wsStatus st; logs := logs st; treadmillRef := treadmillRef st;
     commandRef := commandRef st; displayState := displayState st;
     wsRef := wsRef st; hasLoggedFirstMsg := hasLoggedFirstMsg st;
     sockets := x; timeouts := timeouts st |}.

Definition withTimeouts (x : list Timeout.t) (st : App) : App :=
  {| wsStatus := wsStatus st; logs := logs st; treadmillRef := treadmillRef st;
     commandRef := commandRef st; displayState := displayState st;
     wsRef := wsRef st; hasLoggedFirstMsg := hasLoggedFirstMsg st;
     sockets := sockets st; timeouts := x |}.

(** The state of a freshly mounted [App]; [now] is what [Date.now()]
    returns when [treadmillRef] is initialised. *)
Definition initialApp (now : Z) : App :=
  let telemetry :=
    {| speedKmh := 0; inclinePct := 0; timestamp := now; isConnected := false |} in
  {| wsStatus := DISCONNECTED; logs := [];
     treadmillRef := telemetry;
     commandRef := {| Command.speed := 0; Command.incline := 0 |};
     displayState := telemetry;
     wsRef := None; hasLoggedFirstMsg := false;
     sockets := []; timeouts := [] |}.

(* ===================================================================== *)
(** ** App.tsx: the link manager *)
(* ===================================================================== *)

Section LinkManager.

(** The host.  [parseFloat s] is [None] when the built-in returns NaN;
    [JSON_parse s] is [None] when [JSON.parse] throws; [WebSocket_new u] is
    [None] when [new WebSocket(u)] throws and the [url] attribute of the
    new socket otherwise. *)
Variable parseFloat : string -> option Q.
Variable JSON_parse : string -> option jsval.
Variable JSON_stringify : jsval -> string.
Variable WebSocket_new : string -> option string.

Definition createProtocolMessage (type : string) (value : option Q) : jsval :=
  match value with
  | Some v => JObj (<["type" := JStr type]> (<["value" := JNum v]> ∅))
  | None => JObj (<["type" := JStr type]> ∅)
  end.

Definition parseNumber (val : jsval) : option Q :=
  match val with
  | JNum q => Some q
  | JStr s => parseFloat s
  | _ => None
  end.

(** [setLogs(prev => [entry, ...prev].slice(0, 200))]; [now] is the
    [Date.now()] of the entry. *)
Definition addLog (message : string) (type : LogType) (now : Z) (st : App) : App :=
  withLogs
    (take 200
       ({| LogEntry.timestamp := now; LogEntry.message := message;
           LogEntry.type := type |} :: logs st))
    st.

(** [socket.send(json)]. *)
Definition WebSocket_send (json : string) (socket : WebSocket.t) : WebSocket.t :=
  {| WebSocket.url := WebSocket.url socket;
     WebSocket.readyState := WebSocket.readyState socket;
     WebSocket.sent := WebSocket.sent socket ++ [json];
     WebSocket.wsUrl := WebSocket.wsUrl socket |}.

(** [socket.close()]: a socket that is neither closing nor closed starts
    closing. *)
Definition WebSocket_close (socket : WebSocket.t) : WebSocket.t :=
  if (WebSocket.readyState socket =? WS_STATE_CLOSING)%Z
     || (WebSocket.readyState socket =? WS_STATE_CLOSED)%Z
  then socket
  else {| WebSocket.url := WebSocket.url socket;
          WebSocket.readyState := WS_STATE_CLOSING;
          WebSocket.sent := WebSocket.sent socket;
          WebSocket.wsUrl := WebSocket.wsUrl socket |}.

(** [targetWs = socket || wsRef.current]. *)
Definition targetWs (socket : option nat) (st : App) : option nat :=
  match socket with
  | Some ws => Some ws
  | None => wsRef st
  end.

(** [targetWs && targetWs.readyState === WS_STATE_OPEN]. *)
Definition targetIsOpen (socket : option nat) (st : App) : bool :=
  match targetWs socket st ≫= (λ ws, sockets st !! ws) with
  | Some target => (WebSocket.readyState target =? WS_STATE_OPEN)%Z
  | None => false
  end.

(** [sendCommand(type, value, socket)].  [send] does not throw on an open
    socket and [JSON.stringify] does not throw on a protocol message, so
    the [catch] branch is not modelled. *)
Definition sendCommand (type : string) (value : option Q) (socket : option nat)
    (now : Z) (st : App) : App :=
  if targetIsOpen socket st then
    match targetWs socket st with
    | Some ws =>
        let payload := createProtocolMessage type value in
        let json := JSON_stringify payload in
        let st := withSockets (alter (WebSocket_send json) ws (sockets st)) st in
        addLog ("-> " +:+ json) tx now st
    | None => st
    end
  else st.

(** [wsRef.current?.url === wsUrl && wsRef.current?.readyState === WS_STATE_OPEN]. *)
Definition alreadyConnected (wsUrl : string) (st : App) : bool :=
  match wsRef st ≫= (λ ws, sockets st !! ws) with
  | Some current =>
      String.eqb (WebSocket.url current) wsUrl
      && (WebSocket.readyState current =? WS_STATE_OPEN)%Z
  | None => false
  end.

(** [connectWebSocket()], in the closure whose [wsUrl] is the given one.
    The new socket is the next position of [sockets]; its handlers are
    [onopen], [onclose], [onerror] and [onmessage] below. *)
Definition connectWebSocket (wsUrl : string) (now : Z) (st : App) : App :=
  if alreadyConnected wsUrl st then st
  else
    let st :=
      match wsRef st with
      | Some current => withSockets (alter WebSocket_close current (sockets st)) st
      | None => st
      end in
    let st := withWsStatus CONNECTING st in
    let st := withHasLoggedFirstMsg false st in
    match WebSocket_new wsUrl with
    | None =>
        let st := addLog ("Invalid URL: " +:+ wsUrl) error now st in
        withWsStatus ERROR st
    | Some url =>
        let ws := length (sockets st) in
        let socket :=
          {| WebSocket.url := url; WebSocket.readyState := WS_STATE_CONNECTING;
             WebSocket.sent := []; WebSocket.wsUrl := wsUrl |} in
        let st := withSockets (sockets st ++ [socket]) st in
        withWsRef (Some ws) st
    end.

(** [ws.onopen]. *)
Definition onopen (wsUrl : string) (ws : nat) (now : Z) (st : App) : App :=
  if decide (wsRef st = Some ws) then
    let st := withWsStatus CONNECTED st in
    let st := addLog ("Connected to " +:+ wsUrl) success now st in
    let st := sendCommand "REQUEST_CONTROL" None (Some ws) now st in
    sendCommand "GET_STATE" None (Some ws) now st
  else st.

(** [ws.onclose]; [code] is [event.code]. *)
Definition onclose (wsUrl : string) (ws : nat) (code : Z) (now : Z) (st : App) : App :=
  if decide (wsRef st = Some ws) then
    let st := withWsStatus DISCONNECTED st in
    let st :=
      addLog ("Connection lost (Code: " +:+ pretty code +:+ "). Retrying in 3s...")
        error now st in
    withTimeouts
      (timeouts st
       ++ [{| Timeout.delay := 3000; Timeout.ws := ws; Timeout.wsUrl := wsUrl |}])
      st
  else st.

(** The callback [onclose] hands to [setTimeout]. *)
Definition reconnect (t : Timeout.t) (now : Z) (st : App) : App :=
  if decide (wsRef st = Some (Timeout.ws t)) then
    connectWebSocket (Timeout.wsUrl t) now st
  else st.

(** [ws.onerror]. *)
Definition onerror (ws : nat) (st : App) : App :=
  if decide (wsRef st = Some ws) then withWsStatus ERROR st else st.

(** The extraction of [ws.onmessage] from [msg = JSON.parse(event.data)]:
    the values of [rawSpeed] and [rawIncline] before [parseNumber], or
    [None] when reading [msg.data] throws ([msg] is [null]). *)
Definition rawValues (msg : jsval) : option (jsval * jsval) :=
  match msg with
  | JNull | JUndefined => None
  | _ =>
      let rawSpeed := JUndefined in
      let rawIncline := JUndefined in
      (* 1. Nested 'data' object *)
      let data := getProp msg "data" in
      let nested := truthy data && typeofObject data in
      let rawSpeed :=
        if nested
        then getProp data "speed_kmh" ?? getProp data "speed" ?? getProp data "kph"
        else rawSpeed in
      let rawIncline :=
        if nested
        then getProp data "incline_pct" ?? getProp data "incline" ?? getProp data "grade"
        else rawIncline in
      (* 2. Flat JSON / fallback *)
      let rawSpeed :=
        if isUndefined rawSpeed
        then getProp msg "speed" ?? getProp msg "speedKmh" ?? getProp msg "kph"
             ?? getProp msg "spd"
        else rawSpeed in
      let rawIncline :=
        if isUndefined rawIncline
        then getProp msg "incline" ?? getProp msg "inclinePct" ?? getProp msg "grade"
             ?? getProp msg "inc"
        else rawIncline in
      (* 3. QZ / ZWIFT style *)
      let rawSpeed :=
        if strictEqStr (getProp msg "type") "SPEED"
           || strictEqStr (getProp msg "type") "SET_SPEED"
        then getProp msg "value" else rawSpeed in
      let rawIncline :=
        if strictEqStr (getProp msg "type") "INCLINE"
           || strictEqStr (getProp msg "type") "SET_INCLINE"
        then getProp msg "value" else rawIncline in
      Some (rawSpeed, rawIncline)
  end.

(** [newSpeed] and [newIncline] of [ws.onmessage]. *)
Definition extractUpdate (msg : jsval) : option (option Q * option Q) :=
  match rawValues msg with
  | Some (rawSpeed, rawIncline) => Some (parseNumber rawSpeed, parseNumber rawIncline)
  | None => None
  end.

(** [ws.onmessage] on a text frame; [data] is [event.data].  Whatever the
    [try] block throws is caught and only reported to the console. *)
Definition onmessage (data : string) (now : Z) (st : App) : App :=
  let st :=
    if hasLoggedFirstMsg st then st
    else
      let st := addLog ("Rx: " +:+ String.substring 0 100 data +:+ "...") info now st in
      withHasLoggedFirstMsg true st in
  match JSON_parse data ≫= extractUpdate with
  | Some (newSpeed, newIncline) =>
      if bool_decide (is_Some newSpeed) || bool_decide (is_Some newIncline) then
        let newState :=
          {| speedKmh := default (speedKmh (treadmillRef st)) newSpeed;
             inclinePct := default (inclinePct (treadmillRef st)) newIncline;
             timestamp := now;
             isConnected := true |} in
        let st := withTreadmillRef newState st in
        withDisplayState newState st
      else st
  | None => st
  end.

(** The cleanup of the connection effect. *)
Definition cleanup (st : App) : App :=
  let socket := wsRef st in
  let st := withWsRef None st in
  match socket with
  | Some ws => withSockets (alter WebSocket_close ws (sockets st)) st
  | None => st
  end.

(** [wsRef.current?.readyState === WS_STATE_OPEN]. *)
Definition currentIsOpen (st : App) : bool := targetIsOpen None st.

(** The callback of the polling loop. *)
Definition poll (now : Z) (st : App) : App :=
  if currentIsOpen st then sendCommand "GET_STATE" None None now st else st.

(** The scenario initialization effect when [isScenarioActive] turns true. *)
Definition scenarioStart (now : Z) (st : App) : App :=
  let st :=
    withCommandRef
      {| Command.speed := speedKmh (treadmillRef st);
         Command.incline := inclinePct (treadmillRef st) |} st in
  addLog "Scenario Started: Initialized trackers" info now st.

(** The callback of the speed loop, armed with [scenarioConfig.speed]. *)
Definition speedTick (speed : Range.t) (random : Q) (now : Z) (st : App) : App :=
  if negb (currentIsOpen st) then st
  else
    let nextSpeed :=
      getNextValue random (Command.speed (commandRef st))
        (Range.min speed) (Range.max speed) (Range.volatility speed) 1 in
    let st :=
      withCommandRef
        {| Command.speed := nextSpeed;
           Command.incline := Command.incline (commandRef st) |} st in
    sendCommand "SET_SPEED_NOW" (Some nextSpeed) None now st.

(** The callback of the incline loop, armed with [scenarioConfig.incline]. *)
Definition inclineTick (incline : Range.t) (random : Q) (now : Z) (st : App) : App :=
  if negb (currentIsOpen st) then st
  else
    let nextIncline :=
      getNextValue random (Command.incline (commandRef st))
        (Range.min incline) (Range.max incline) (Range.volatility incline) 1 in
    let st :=
      withCommandRef
        {| Command.speed := Command.speed (commandRef st);
           Command.incline := nextIncline |} st in
    sendCommand "SET_INCLINE_NOW" (Some nextIncline) None now st.

End LinkManager.

(** The three message shapes as separate readings, for comparison with
    [rawValues]. *)

(** The first of the [keys] of [v] that is neither [null] nor [undefined],
    read as a chain of [??]. *)
Fixpoint firstNonNullish (keys : list string) (v : jsval) : jsval :=
  match keys with
  | [] => JUndefined
  | [k] => getProp v k
  | k :: rest => getProp v k ?? firstNonNullish rest v
  end.

(** Shape 1: the candidate keys under a [data] object. *)
Definition nestedShape (keys : list string) (msg : jsval) : jsval :=
  let data := getProp msg "data" in
  if truthy data && typeofObject data then firstNonNullish keys data
  else JUndefined.

(** Shape 2: the candidate keys at the top level. *)
Definition flatShape (keys : list string) (msg : jsval) : jsval :=
  firstNonNullish keys msg.

(** Shape 3: a message whose [type] is one of [types] carries the reading
    in [value]. *)
Definition typedShape (types : list string) (msg : jsval) : option jsval :=
  if existsb (strictEqStr (getProp msg "type")) types
  then Some (getProp msg "value") else None.

(** The order in which [ws.onmessage] lets the shapes decide: a typed
    message first, then the nested reading unless it is [undefined], then
    the flat one. *)
Definition typedNestedFlat (typed : option jsval) (nested flat : jsval) : jsval :=
  match typed with
  | Some value => value
  | None => if isUndefined nested then flat else nested
  end.

Definition speedByShape (msg : jsval) : jsval :=
  typedNestedFlat
    (typedShape ["SPEED"; "SET_SPEED"] msg)
    (nestedShape ["speed_kmh"; "speed"; "kph"] msg)
    (flatShape ["speed"; "speedKmh"; "kph"; "spd"] msg).

Definition inclineByShape (msg : jsval) : jsval :=
  typedNestedFlat
    (typedShape ["INCLINE"; "SET_INCLINE"] msg)
    (nestedShape ["incline_pct"; "incline"; "grade"] msg)
    (flatShape ["incline"; "inclinePct"; "grade"; "inc"] msg).

(* ===================================================================== *)
(** ** components/ControlPanel.tsx *)
(* ===================================================================== *)

Inductive SectionKey := SectionSpeed | SectionIncline.

Inductive RangeKey := KeyMin | KeyMax | KeyVolatility | KeyUpdateInterval.

(** [{...range, [field]: numVal}]. *)
Definition setRangeField (field : RangeKey) (numVal : Q) (range : Range.t) : Range.t :=
  match field with
  | KeyMin =>
      {| Range.min := numVal; Range.max := Range.max range;
         Range.volatility := Range.volatility range;
         Range.updateInterval := Range.updateInterval range |}
  | KeyMax =>
      {| Range.min := Range.min range; Range.max := numVal;
         Range.volatility := Range.volatility range;
         Range.updateInterval := Range.updateInterval range |}
  | KeyVolatility =>
      {| Range.min := Range.min range; Range.max := Range.max range;
         Range.volatility := numVal;
         Range.updateInterval := Range.updateInterval range |}
  | KeyUpdateInterval =>
      {| Range.min := Range.min range; Range.max := Range.max range;
         Range.volatility := Range.volatility range;
         Range.updateInterval := numVal |}
  end.

(** [config[section]]. *)
Definition getSection (section : SectionKey) (config : ScenarioConfig.t) : Range.t :=
  match section with
  | SectionSpeed => ScenarioConfig.speed config
  | SectionIncline => ScenarioConfig.incline config
  end.

(** [{...config, [section]: range}]. *)
Definition setSection (section : SectionKey) (range : Range.t)
    (config : ScenarioConfig.t) : ScenarioConfig.t :=
  match section with
  | SectionSpeed =>
      {| ScenarioConfig.name := ScenarioConfig.name config;
         ScenarioConfig.speed := range;
         ScenarioConfig.incline := ScenarioConfig.incline config |}
  | SectionIncline =>
      {| ScenarioConfig.name := ScenarioConfig.name config;
         ScenarioConfig.speed := ScenarioConfig.speed config;
         ScenarioConfig.incline := range |}
  end.

Section ControlPanel.

Variable parseFloat : string -> option Q.
Variable Number_toString : Q -> string.

(** [handleChange(section, field, value)] with the [config] prop: the
    configuration handed to [onConfigChange], or [None] when the handler
    returns without calling it. *)
Definition handleChange (section : SectionKey) (field : RangeKey) (value : string)
    (config : ScenarioConfig.t) : option ScenarioConfig.t :=
  match parseFloat value with
  | None => None
  | Some numVal =>
      let newSectionConfig := setRangeField field numVal (getSection section config) in
      Some (setSection section newSectionConfig config)
  end.

(** The [onChange] of an "Interval (s)" input; [value] is [e.target.value]. *)
Definition intervalOnChange (section : SectionKey) (value : string)
    (config : ScenarioConfig.t) : option ScenarioConfig.t :=
  match parseFloat value with
  | None => None
  | Some val =>
      handleChange section KeyUpdateInterval (Number_toString (val * (1000 # 1))%Q) config
  end.

End ControlPanel.

(** The initial [scenarioConfig] of [App]. *)
Definition initialScenarioConfig : ScenarioConfig.t :=
  {| ScenarioConfig.name := "Random Walk";
     ScenarioConfig.speed :=
       {| Range.min := 2; Range.max := 8; Range.volatility := 1 # 2;
          Range.updateInterval := 5000 # 1 |};
     ScenarioConfig.incline :=
       {| Range.min := 0; Range.max := 10 # 1; Range.volatility := 1;
          Range.updateInterval := 30000 # 1 |} |}.

(** The period the speed loop effect hands to [setInterval], when it arms
    one. *)
Definition speedLoopPeriod (isScenarioActive : bool)
    (scenarioConfig : ScenarioConfig.t) : option Q :=
  if isScenarioActive
  then Some (Range.updateInterval (ScenarioConfig.speed scenarioConfig))
  else None.

(** The same for the incline loop. *)
Definition inclineLoopPeriod (isScenarioActive : bool)
    (scenarioConfig : ScenarioConfig.t) : option Q :=
  if isScenarioActive
  then Some (Range.updateInterval (ScenarioConfig.incline scenarioConfig))
  else None.

(* ===================================================================== *)
(** ** The event loop *)
(* ===================================================================== *)

(** What can happen to a mounted [App].  The transport is not constrained:
    any notification may arrive for any socket created so far, in any
    order and any number of times, so that what holds of every trace holds
    of the traces a browser produces. *)
Inductive Event :=
  | Mount (wsUrl : string)
  | Unmount
  | Opened (ws : nat)
  | Closed (ws : nat) (code : Z)
  | Failed (ws : nat)
  | Received (ws : nat) (data : string)
  | TimeoutElapsed
  | PollTick
  | ScenarioStarted
  | SpeedTick (speed : Range.t) (random : Q)
  | InclineTick (incline : Range.t) (random : Q).

Definition setReadyState (state : Z) (socket : WebSocket.t) : WebSocket.t :=
  {| WebSocket.url := WebSocket.url socket;
     WebSocket.readyState := state;
     WebSocket.sent := WebSocket.sent socket;
     WebSocket.wsUrl := WebSocket.wsUrl socket |}.

Section EventLoop.

Variable parseFloat : string -> option Q.
Variable JSON_parse : string -> option jsval.
Variable JSON_stringify : jsval -> string.
Variable WebSocket_new : string -> option string.

(** One turn of the event loop at time [now].  The connection effect runs
    [connectWebSocket] on [Mount] and its cleanup on [Unmount]; a socket is
    open when its [onopen] runs and closed when its [onclose] runs; all
    pending timeouts have the same delay, so the oldest elapses first. *)
Definition step (st : App) (turn : Z * Event) : App :=
  let now := turn.1 in
  match turn.2 with
  | Mount wsUrl => connectWebSocket WebSocket_new wsUrl now st
  | Unmount => cleanup st
  | Opened ws =>
      match sockets st !! ws with
      | Some socket =>
          let st := withSockets (alter (setReadyState WS_STATE_OPEN) ws (sockets st)) st in
          onopen JSON_stringify (WebSocket.wsUrl socket) ws now st
      | None => st
      end
  | Closed ws code =>
      match sockets st !! ws with
      | Some socket =>
          let st := withSockets (alter (setReadyState WS_STATE_CLOSED) ws (sockets st)) st in
          onclose (WebSocket.wsUrl socket) ws code now st
      | None => st
      end
  | Failed ws =>
      match sockets st !! ws with
      | Some _ => onerror ws st
      | None => st
      end
  | Received ws data =>
      match sockets st !! ws with
      | Some _ => onmessage parseFloat JSON_parse data now st
      | None => st
      end
  | TimeoutElapsed =>
      match timeouts st with
      | t :: rest => reconnect WebSocket_new t now (withTimeouts rest st)
      | [] => st
      end
  | PollTick => poll JSON_stringify now st
  | ScenarioStarted => scenarioStart now st
  | SpeedTick speed random => speedTick JSON_stringify speed random now st
  | InclineTick incline random => inclineTick JSON_stringify incline random now st
  end.

Definition run (trace : list (Z * Event)) (st : App) : App :=
  fold_left step trace st.

(** A received frame from which the handler extracts no negative speed. *)
Definition speedNotNegative (turn : Z * Event) : bool :=
  match turn.2 with
  | Received _ data =>
      match JSON_parse data ≫= extractUpdate parseFloat with
      | Some (Some newSpeed, _) => Qle_bool 0 newSpeed
      | _ => true
      end
  | _ => true
  end.

End EventLoop.

(** [wsRef.current] and the sockets the pending timeouts close over are
    sockets created so far. *)
Definition wellFormed (st : App) : Prop :=
  (∀ ws, wsRef st = Some ws → ws < length (sockets st))
  ∧ Forall (λ t, Timeout.ws t < length (sockets st)) (timeouts st).

(** A socket that exists and is not the current one. *)
Definition superseded (ws : nat) (st : App) : Prop :=
  ws < length (sockets st) ∧ wsRef st ≠ Some ws.

(** Proof steps shared by the invariants of the event loop: unfold the
    handlers, then split on every test they make. *)
Ltac handlers :=
  unfold step, reconnect, connectWebSocket, onopen, onclose, onerror, cleanup,
    poll, scenarioStart, speedTick, inclineTick, sendCommand, onmessage, addLog.

Ltac cases := repeat first [case_match | case_decide].

(* ===================================================================== *)
(** ** A concrete host, to run the model on given inputs *)
(* ===================================================================== *)

(** The rounding of binary64: the double nearest to [x], a tie going to
    the even significand; 53 bits from [2^-1022] on, multiples of [2^-1074]
    below.  There is no largest double here: a value beyond the range of
    binary64 is rounded as if the exponent had no upper bound. *)

(** The exponent of the last bit of the significand of [a > 0]. *)
Definition binaryExponent (a : Q) : Z :=
  let e := (Z.log2 (Qnum a) - Z.log2 (Zpos (Qden a)) - 52)%Z in
  let e := if Qltb (a / (2 # 1) ^ e) ((2 # 1) ^ 52) then (e - 1)%Z else e in
  Z.max e (-1074).

(** The integer nearest to [s], a tie going to the even one. *)
Definition roundHalfEven (s : Q) : Z :=
  let f := Qfloor s in
  let r := (s - inject_Z f)%Q in
  if Qltb r (1 # 2) then f
  else if Qltb (1 # 2) r then (f + 1)%Z
  else if Z.even f then f else (f + 1)%Z.

Definition binary64 (x : Q) : Q :=
  if Qeq_bool x 0 then 0%Q
  else
    let a := Qabs x in
    let e := binaryExponent a in
    let m := roundHalfEven (a / (2 # 1) ^ e) in
    ((if Qltb x 0 then - inject_Z m else inject_Z m) * (2 # 1) ^ e)%Q.

(** The double nearest to a positive number. *)
Definition nearestDouble (a : Q) : Q :=
  (inject_Z (roundHalfEven (a / (2 # 1) ^ binaryExponent a))
   * (2 # 1) ^ binaryExponent a)%Q.

(** A double: a significand of at most 53 bits times a power of two that
    is not below the least one. *)
Definition representable (x : Q) : Prop :=
  exists m e : Z,
    (-1074 <= e)%Z /\ (Z.abs m <= 2 ^ 53)%Z /\ (x == inject_Z m * (2 # 1) ^ e)%Q.

(** The decimal literals of [parseFloat]: an optional sign, digits and an
    optional fraction at the start of the string; no leading blanks, no
    exponent, no [Infinity]. *)
Definition digitValue (c : Ascii.ascii) : option Z :=
  let n := Z.of_N (Ascii.N_of_ascii c) in
  if (48 <=? n)%Z && (n <=? 57)%Z then Some (n - 48)%Z else None.

Fixpoint readDigits (s : string) : list Z * string :=
  match s with
  | String c rest =>
      match digitValue c with
      | Some d => let '(ds, tail) := readDigits rest in (d :: ds, tail)
      | None => ([], s)
      end
  | EmptyString => ([], s)
  end.

Definition digitsValue (ds : list Z) : Z :=
  fold_left (λ acc d, acc * 10 + d)%Z ds 0%Z.

Definition parseFloat_decimal (s : string) : option Q :=
  let '(negative, s) :=
    match s with
    | String "-"%char rest => (true, rest)
    | String "+"%char rest => (false, rest)
    | _ => (false, s)
    end in
  let '(whole, rest) := readDigits s in
  let fraction :=
    match rest with
    | String "."%char rest => (readDigits rest).1
    | _ => []
    end in
  match whole, fraction with
  | [], [] => None
  | _, _ =>
      let magnitude :=
        (inject_Z (digitsValue whole)
         + inject_Z (digitsValue fraction) / (10 # 1) ^ Z.of_nat (length fraction))%Q in
      Some (Qred (if negative then - magnitude else magnitude)%Q)
  end.

(** [Number.prototype.toString] on integers; another rational is shown as
    a fraction, which the built-in never prints. *)
Definition Number_toString_decimal (q : Q) : string :=
  let q := Qred q in
  if (Z.pos (Qden q) =? 1)%Z then pretty (Qnum q)
  else pretty (Qnum q) +:+ "/" +:+ pretty (Z.pos (Qden q)).

Definition quoted (s : string) : string :=
  String (Ascii.ascii_of_nat 34) s +:+ String (Ascii.ascii_of_nat 34) EmptyString.

(** [JSON.stringify] on the protocol messages [createProtocolMessage]
    builds. *)
Definition JSON_stringify_message (payload : jsval) : string :=
  match getProp payload "type", getProp payload "value" with
  | JStr type, JNum value =>
      "{" +:+ quoted "type" +:+ ":" +:+ quoted type +:+ ","
      +:+ quoted "value" +:+ ":" +:+ Number_toString_decimal value +:+ "}"
  | JStr type, _ => "{" +:+ quoted "type" +:+ ":" +:+ quoted type +:+ "}"
  | _, _ => "{}"
  end.

(** [JSON.parse] on the texts of a table that pairs each text with its
    parse; any other text is refused. *)
Definition JSON_parse_table (table : list (string * jsval)) (text : string)
    : option jsval :=
  snd <$> find (λ entry, String.eqb entry.1 text) table.

(** A [WebSocket] constructor that accepts the URLs that start with [ws:]
    or [wss:] and leaves them as they are. *)
Definition WebSocket_new_ws (wsUrl : string) : option string :=
  if String.prefix "ws:" wsUrl || String.prefix "wss:" wsUrl then Some wsUrl else None.

(** Frames of the shapes the handler looks for, each with its parse. *)
Definition frameFlatAndTyped : string * jsval :=
  ("{" +:+ quoted "speed" +:+ ":5," +:+ quoted "type" +:+ ":" +:+ quoted "SET_SPEED"
   +:+ "," +:+ quoted "value" +:+ ":6}",
   JObj (<["speed" := JNum (5 # 1)]>
           (<["type" := JStr "SET_SPEED"]> (<["value" := JNum (6 # 1)]> ∅)))).

Definition frameNegativeSpeed : string * jsval :=
  ("{" +:+ quoted "speed" +:+ ":-5}", JObj (<["speed" := JNum (- 5 # 1)]> ∅)).

Definition frameSpeedOnly : string * jsval :=
  ("{" +:+ quoted "data" +:+ ":{" +:+ quoted "speed_kmh" +:+ ":5.25}}",
   JObj (<["data" := JObj (<["speed_kmh" := JNum (21 # 4)]> ∅)]> ∅)).

Definition frameInclineOnly : string * jsval :=
  ("{" +:+ quoted "inc" +:+ ":1.5}", JObj (<["inc" := JNum (3 # 2)]> ∅)).

Definition frameUnrecognised : string * jsval :=
  ("{" +:+ quoted "foo" +:+ ":1}", JObj (<["foo" := JNum 1]> ∅)).

Definition frames : list (string * jsval) :=
  [frameFlatAndTyped; frameNegativeSpeed; frameSpeedOnly; frameInclineOnly;
   frameUnrecognised].

(** The model on that host, and two states it reaches: the link up
    (mounted, socket 0 open), and the link down (socket 0 closed, its
    reconnect pending). *)
Definition runOnHost (trace : list (Z * Event)) (st : App) : App :=
  run parseFloat_decimal (JSON_parse_table frames) JSON_stringify_message
    WebSocket_new_ws trace st.

Definition sampleUrl : string := "ws://localhost:8000/ws".

Definition linkUp : App :=
  runOnHost [(1%Z, Mount sampleUrl); (2%Z, Opened 0)] (initialApp 0).

Definition linkDown : App :=
  runOnHost [(3%Z, Closed 0 1006)] linkUp.

(** The link up at the moment the browser has closed socket 0 and is about
    to run its [onclose]. *)
Definition linkClosing : App :=
  withSockets (alter (setReadyState WS_STATE_CLOSED) 0 (sockets linkUp)) linkUp.

(** Three frames arriving on the open link: a speed, an incline, and one
    the handler does not recognise. *)
Definition telemetryTrace : list (Z * Event) :=
  [(1%Z, Mount sampleUrl); (2%Z, Opened 0);
   (3%Z, Received 0 frameSpeedOnly.1);
   (4%Z, Received 0 frameInclineOnly.1);
   (5%Z, Received 0 frameUnrecognised.1)].

(* ===================================================================== *)
(** ** The rest of the code: scenario state, charts, recording *)
(* ===================================================================== *)

(** [generateNextScenarioState(currentSpeed, currentIncline, config)] of
    [randomWalk.ts]; the object literal evaluates its [speed] first, so
    [randomSpeed] is the first draw and [randomIncline] the second. *)
Definition generateNextScenarioState (randomSpeed randomIncline : Q)
    (currentSpeed currentIncline : Q) (config : ScenarioConfig.t) : Command.t :=
  {| Command.speed :=
       getNextValue randomSpeed currentSpeed
         (Range.min (ScenarioConfig.speed config))
         (Range.max (ScenarioConfig.speed config))
         (Range.volatility (ScenarioConfig.speed config)) 1;
     Command.incline :=
       getNextValue randomIncline currentIncline
         (Range.min (ScenarioConfig.incline config))
         (Range.max (ScenarioConfig.incline config))
         (Range.volatility (ScenarioConfig.incline config)) 1 |}.

(** [range[field]]. *)
Definition getRangeField (field : RangeKey) (range : Range.t) : Q :=
  match field with
  | KeyMin => Range.min range
  | KeyMax => Range.max range
  | KeyVolatility => Range.volatility range
  | KeyUpdateInterval => Range.updateInterval range
  end.

(** A point of [chartData]. *)
Module DataPoint.
Record t := { time : string; speed : Q; incline : Q }.
End DataPoint.

(** [l.slice(-n)] for a positive [n]: the last [n] elements, all of them
    when there are fewer. *)
Definition sliceLast {A : Type} (n : nat) (l : list A) : list A :=
  drop (length l - n) l.

(** The updater the chart loop hands to [setChartData] once a second;
    [time] is the text [toLocaleTimeString] gives for the current time. *)
Definition chartTick (time : string) (st : App) (prev : list DataPoint.t)
    : list DataPoint.t :=
  let newData :=
    prev ++ [{| DataPoint.time := time;
                DataPoint.speed := speedKmh (treadmillRef st);
                DataPoint.incline := inclinePct (treadmillRef st) |}] in
  sliceLast 30 newData.

Module Landmark.
Record t := { x : Q; y : Q; z : Q; visibility : option Q }.
End Landmark.

Module PoseFrameData.
Record t := {
  timestamp : Z;
  frameId : nat;
  treadmillState : TreadmillState;
  landmarks : option (list Landmark.t);
}.
End PoseFrameData.

(** [recordedDataRef.current] and the [recordedCount] cell. *)
Record Recording := {
  recordedDataRef : list PoseFrameData.t;
  recordedCount : nat;
}.

Definition initialRecording : Recording :=
  {| recordedDataRef := []; recordedCount := 0 |}.

(** [handlePoseDetected(results)] in a render where [isRecording] has the
    given value; [poseLandmarks] is [results.poseLandmarks], [None] when it
    is missing (the stored [landmarks] is then [null]). *)
Definition handlePoseDetected (isRecording : bool)
    (poseLandmarks : option (list Landmark.t)) (now : Z) (st : App)
    (recording : Recording) : Recording :=
  if isRecording then
    let frameData :=
      {| PoseFrameData.timestamp := now;
         PoseFrameData.frameId := length (recordedDataRef recording);
         PoseFrameData.treadmillState := treadmillRef st;
         PoseFrameData.landmarks := poseLandmarks |} in
    let data := recordedDataRef recording ++ [frameData] in
    if (length data mod 10 =? 0)%nat
    then {| recordedDataRef := data; recordedCount := length data |}
    else {| recordedDataRef := data; recordedCount := recordedCount recording |}
  else recording.

(** [clearSession()]; [confirmed] is what [window.confirm] returns. *)
Definition clearSession (confirmed : bool) (now : Z) (st : App)
    (recording : Recording) : App * Recording :=
  if confirmed
  then (addLog "Session data cleared" info now st, initialRecording)
  else (st, recording).

(** What the camera and the user can do to a recording; a turn gives the
    time, the state of [App] at that time and the event. *)
Inductive RecordingEvent :=
  | PoseDetected (isRecording : bool) (poseLandmarks : option (list Landmark.t))
  | ClearSession (confirmed : bool).

Definition recordingStep (recording : Recording)
    (turn : Z * App * RecordingEvent) : Recording :=
  match turn.2 with
  | PoseDetected isRecording poseLandmarks =>
      handlePoseDetected isRecording poseLandmarks turn.1.1 turn.1.2 recording
  | ClearSession confirmed => (clearSession confirmed turn.1.1 turn.1.2 recording).2
  end.

Definition record (trace : list (Z * App * RecordingEvent)) : Recording :=
  fold_left recordingStep trace initialRecording.

(** Every socket but the current one is closing or closed. *)
Definition closingOrClosed (socket : WebSocket.t) : Prop :=
  WebSocket.readyState socket = WS_STATE_CLOSING
  ∨ WebSocket.readyState socket = WS_STATE_CLOSED.

Definition othersClosing (st : App) : Prop :=
  ∀ ws socket, sockets st !! ws = Some socket → wsRef st ≠ Some ws →
    closingOrClosed socket.

(** The keys [ws.onmessage] reads from a message that has no [data] object
    and no [type]. *)
Definition messageKeys : list string :=
  ["data"; "speed"; "speedKmh"; "kph"; "spd"; "incline"; "inclinePct"; "grade";
   "inc"; "type"].

(** The types of the commands the component sends. *)
Definition outboundTypes : list string :=
  ["REQUEST_CONTROL"; "GET_STATE"; "SET_SPEED_NOW"; "SET_INCLINE_NOW"].

(** Socket 0 as it is when the link is up, and the state just after the
    mount, when it is still connecting. *)
Definition linkUpSocket : WebSocket.t :=
  {| WebSocket.url := sampleUrl; WebSocket.readyState := WS_STATE_OPEN;
     WebSocket.sent :=
       [JSON_stringify_message (createProtocolMessage "REQUEST_CONTROL" None);
        JSON_stringify_message (createProtocolMessage "GET_STATE" None)];
     WebSocket.wsUrl := sampleUrl |}.

Definition linkConnecting : App :=
  runOnHost [(1%Z, Mount sampleUrl)] (initialApp 0).

(** A state with a superseded socket: the link went down and its
    reconnect ran, so socket 0 is closed and socket 1 is current. *)
Definition linkReconnected : App :=
  runOnHost [(3%Z, Closed 0 1006); (3003%Z, TimeoutElapsed)] linkUp.

(* ===================================================================== *)
(** * Properties *)
(* ===================================================================== *)

(* ===================================================================== *)
(** ** Numbers *)
(* ===================================================================== *)

Section NumberFacts.
#[local] Open Scope Q_scope.

Lemma Qltb_lt (x y : Q) : Qltb x y = true <-> x < y.
Proof.
  unfold Qltb. rewrite negb_true_iff, <- not_true_iff_false, Qle_bool_iff.
  split; [apply Qnot_le_lt | apply Qlt_not_le].
Qed.

Lemma Qltb_ge (x y : Q) : Qltb x y = false <-> y <= x.
Proof. unfold Qltb. rewrite negb_false_iff. apply Qle_bool_iff. Qed.

Lemma Math_pow10_pos (p : Z) : 0 < Math_pow10 p.
Proof. unfold Math_pow10. apply Qpower_0_lt. reflexivity. Qed.

Lemma Math_pow10_nonzero (p : Z) : ~ Math_pow10 p == 0.
Proof. intros E. pose proof (Math_pow10_pos p) as H. rewrite E in H. discriminate. Qed.

(** [Math.max(lo, Math.min(hi, x))] lies between the limits. *)
Lemma clamp_within (lo hi x : Q) :
  lo <= hi -> lo <= Qmax lo (Qmin hi x) /\ Qmax lo (Qmin hi x) <= hi.
Proof.
  intros Hle. split.
  - apply Q.le_max_l.
  - apply Q.max_lub; [exact Hle | apply Q.le_min_l].
Qed.


Lemma Qfloor_unique (z : Q) (n : Z) :
  inject_Z n <= z -> z < inject_Z (n + 1) -> Qfloor z = n.
Proof.
  intros Hlo Hhi.
  pose proof (Qfloor_le z) as Hf1. pose proof (Qlt_floor z) as Hf2.
  assert (H1 : inject_Z n < inject_Z (Qfloor z + 1)) by (eapply Qle_lt_trans; eauto).
  assert (H2 : inject_Z (Qfloor z) < inject_Z (n + 1)) by (eapply Qle_lt_trans; eauto).
  rewrite <- Zlt_Qlt in H1, H2. lia.
Qed.

(** [Math.round x] is the integer [n] with [n - 1/2 <= x < n + 1/2]. *)
Lemma Math_round_nearest (x : Q) :
  Math_round x - (1 # 2) <= x /\ x < Math_round x + (1 # 2).
Proof.
  unfold Math_round.
  pose proof (Qfloor_le (x + (1 # 2))) as Hlo.
  pose proof (Qlt_floor (x + (1 # 2))) as Hhi.
  rewrite inject_Z_plus in Hhi. change (inject_Z 1) with 1 in Hhi.
  split; lra.
Qed.

#[local] Instance roundToPrecision_proper :
  Proper (Qeq ==> eq ==> Qeq) roundToPrecision.
Proof.
  intros x y Hxy p ? <-. unfold roundToPrecision, Math_round.
  assert (Hf : Qfloor (x * Math_pow10 p + (1 # 2)) = Qfloor (y * Math_pow10 p + (1 # 2))).
  { apply Qfloor_comp. rewrite Hxy. reflexivity. }
  rewrite Hf. reflexivity.
Qed.

Lemma Qsgn_pos (x : Q) : 0 < x -> Qsgn x = 1.
Proof.
  intros H. unfold Qsgn. destruct x as [n d]. unfold Qlt in H. simpl in *.
  rewrite Z.mul_1_r in H. rewrite Z.sgn_pos by lia. reflexivity.
Qed.

Lemma Qsgn_neg (x : Q) : x < 0 -> Qsgn x = inject_Z (-1).
Proof.
  intros H. unfold Qsgn. destruct x as [n d]. unfold Qlt in H. simpl in *.
  rewrite Z.mul_1_r in H. rewrite Z.sgn_neg by lia. reflexivity.
Qed.

Lemma Qsgn_zero (x : Q) : x == 0 -> Qsgn x = 0.
Proof.
  intros H. unfold Qsgn. destruct x as [n d]. unfold Qeq in H. simpl in *.
  rewrite Z.mul_1_r in H. subst n. reflexivity.
Qed.

(** Rounding half up against rounding half away from zero, on the scaled
    value: they differ by one exactly at a negative tie. *)
Lemma Qfloor_half_away (x f : Q) :
  0 < f ->
  inject_Z (Qfloor (x * f + (1 # 2)))
  == Qsgn x * inject_Z (Qfloor (Qabs x * f + (1 # 2)))
     + (if Qltb x 0 && Qeq_bool (x * f + (1 # 2)) (inject_Z (Qfloor (x * f + (1 # 2))))
        then 1 else 0).
Proof.
  intros Hf.
  destruct (Q_dec x 0) as [[Hneg | Hpos] | Hzero].
  - assert (Hlt : Qltb x 0 = true) by (apply Qltb_lt; exact Hneg).
    rewrite Hlt, (Qsgn_neg x Hneg). cbn [andb].
    set (z := x * f + (1 # 2)).
    assert (Habs : Qabs x * f + (1 # 2) == 1 - z).
    { rewrite (Qabs_neg x) by (apply Qlt_le_weak; exact Hneg). unfold z. ring. }
    rewrite (Qfloor_comp _ _ Habs).
    pose proof (Qfloor_le z) as Hlo. pose proof (Qlt_floor z) as Hhi.
    rewrite inject_Z_plus in Hhi. change (inject_Z 1) with 1 in Hhi.
    destruct (Qeq_bool z (inject_Z (Qfloor z))) eqn:Htie.
    + apply Qeq_bool_iff in Htie.
      assert (E : Qfloor (1 - z) = (1 - Qfloor z)%Z).
      { apply Qfloor_unique; unfold Z.sub;
          rewrite ?inject_Z_plus, ?inject_Z_opp;
          change (inject_Z 1) with 1; lra. }
      rewrite E. unfold Z.sub. rewrite inject_Z_plus, inject_Z_opp.
      change (inject_Z (-1)) with (- (1)). change (inject_Z 1) with 1. lra.
    + apply Qeq_bool_neq in Htie.
      assert (Hst : inject_Z (Qfloor z) < z).
      { apply Qle_lteq in Hlo. destruct Hlo as [H | H]; [exact H |].
        exfalso. apply Htie. symmetry. exact H. }
      assert (E : Qfloor (1 - z) = (- Qfloor z)%Z).
      { apply Qfloor_unique;
          rewrite ?inject_Z_plus, ?inject_Z_opp;
          change (inject_Z 1) with 1; lra. }
      rewrite E, inject_Z_opp. change (inject_Z (-1)) with (- (1)). lra.
  - assert (Hlt : Qltb x 0 = false) by (apply Qltb_ge, Qlt_le_weak; exact Hpos).
    rewrite Hlt, (Qsgn_pos x Hpos). cbn [andb].
    assert (Habs : Qabs x * f + (1 # 2) == x * f + (1 # 2)).
    { rewrite (Qabs_pos x) by (apply Qlt_le_weak; exact Hpos). reflexivity. }
    rewrite (Qfloor_comp _ _ Habs). ring.
  - assert (Hlt : Qltb x 0 = false) by (apply Qltb_ge; rewrite Hzero; apply Qle_refl).
    rewrite Hlt, (Qsgn_zero x Hzero). cbn [andb].
    assert (E : x * f + (1 # 2) == 1 # 2) by (rewrite Hzero; ring).
    rewrite (Qfloor_comp _ _ E). reflexivity.
Qed.

(** [Math.round] reads the value of its argument only. *)
Lemma Math_round_comp (x y : Q) : x == y -> Math_round x = Math_round y.
Proof.
  intros H. unfold Math_round. f_equal. apply Qfloor_comp. rewrite H. reflexivity.
Qed.

(** [Math.round] is rounding half away from zero except at a negative tie,
    where it goes up: one above. *)
Lemma Math_round_half_away (y : Q) :
  Math_round y == roundHalfAway y + (if negativeHalfway y then 1 else 0).
Proof.
  unfold Math_round, roundHalfAway, negativeHalfway.
  pose proof (Qfloor_half_away y 1 ltac:(reflexivity)) as H.
  assert (E1 : y * 1 + (1 # 2) == y + (1 # 2)) by ring.
  assert (E2 : Qabs y * 1 + (1 # 2) == Qabs y + (1 # 2)) by ring.
  rewrite (Qfloor_comp _ _ E1), (Qfloor_comp _ _ E2) in H.
  assert (E3 : Qeq_bool (y * 1 + (1 # 2)) (inject_Z (Qfloor (y + (1 # 2))))
               = Qeq_bool (y + (1 # 2)) (inject_Z (Qfloor (y + (1 # 2))))).
  { destruct (Qeq_bool (y + (1 # 2)) (inject_Z (Qfloor (y + (1 # 2))))) eqn:E.
    - apply Qeq_bool_iff. apply Qeq_bool_iff in E. rewrite E1. exact E.
    - apply not_true_is_false. intros E'. apply Qeq_bool_iff in E'.
      rewrite E1 in E'. apply Qeq_bool_iff in E'. congruence. }
  rewrite E3 in H. exact H.
Qed.

(** Exact arithmetic has what [rounding] asks for. *)
Lemma rounding_exact : rounding exact.
Proof.
  unfold rounding, exact. repeat split; intros; try assumption; reflexivity.
Qed.

(** A rounding reads the value of its argument only. *)
Lemma rounding_comp (fl : Q -> Q) (x y : Q) : rounding fl -> x == y -> fl x == fl y.
Proof.
  intros (Hmono & _) H. apply Qle_antisym; apply Hmono; rewrite H; apply Qle_refl.
Qed.

Lemma rounding_zero (fl : Q -> Q) (x : Q) : rounding fl -> x == 0 -> fl x == 0.
Proof.
  intros Hfl H. rewrite (rounding_comp fl x 0 Hfl H). apply Hfl.
Qed.

End NumberFacts.

(* ===================================================================== *)
(** ** The rounding of binary64 *)
(* ===================================================================== *)

Section Binary64Facts.
#[local] Open Scope Q_scope.

Abbreviation pow2 e := ((2 # 1) ^ e).

Lemma pow2_pos (e : Z) : 0 < pow2 e.
Proof. apply Qpower_0_lt. reflexivity. Qed.

Lemma pow2_plus (a b : Z) : pow2 (a + b) == pow2 a * pow2 b.
Proof. apply Qpower_plus. discriminate. Qed.

Lemma pow2_le (a b : Z) : (a <= b)%Z -> pow2 a <= pow2 b.
Proof. intros H. apply Qpower_le_compat_l; [exact H | discriminate]. Qed.

Lemma pow2_lt (a b : Z) : (a < b)%Z -> pow2 a < pow2 b.
Proof. intros H. apply Qpower_lt_compat_l; [exact H | reflexivity]. Qed.

Lemma pow2_lt_inv (a b : Z) : pow2 a < pow2 b -> (a < b)%Z.
Proof. intros H. apply (Qpower_lt_compat_l_inv (2 # 1)); [exact H | reflexivity]. Qed.

Lemma pow2_le_inv (a b : Z) : pow2 a <= pow2 b -> (a <= b)%Z.
Proof. intros H. apply (Qpower_le_compat_l_inv (2 # 1)); [exact H | reflexivity]. Qed.

Lemma pow2_inject (n : Z) : (0 <= n)%Z -> inject_Z (2 ^ n) == pow2 n.
Proof. intros H. rewrite Zpower_Qpower by exact H. reflexivity. Qed.


Lemma unscale (a : Q) (e : Z) : a / pow2 e * pow2 e == a.
Proof. field. apply Qpower_not_0. discriminate. Qed.

Lemma scale_lt (a c : Q) (e : Z) : a / pow2 e < c <-> a < c * pow2 e.
Proof.
  pose proof (pow2_pos e) as He. split; intros H.
  - rewrite <- (unscale a e). apply Qmult_lt_compat_r; assumption.
  - apply Qlt_shift_div_r; assumption.
Qed.

Lemma scale_le (a c : Q) (e : Z) : c <= a / pow2 e <-> c * pow2 e <= a.
Proof.
  pose proof (pow2_pos e) as He. split; intros H.
  - rewrite <- (unscale a e). apply Qmult_le_compat_r; [exact H | apply Qlt_le_weak, He].
  - apply Qle_shift_div_l; assumption.
Qed.

(** The exponent [binaryExponent] finds: the significand has 53 bits, or
    the exponent is the least one. *)
Lemma binaryExponent_spec (a : Q) :
  0 < a ->
  (-1074 <= binaryExponent a)%Z
  /\ a < pow2 (binaryExponent a + 53)
  /\ ((-1074 < binaryExponent a)%Z -> pow2 (binaryExponent a + 52) <= a).
Proof.
  intros Ha. unfold binaryExponent.
  destruct a as [n d]. cbn [Qnum Qden].
  assert (Hn : (0 < n)%Z).
  { unfold Qlt in Ha. cbn in Ha. lia. }
  set (L := Z.log2 n). set (D := Z.log2 (Z.pos d)).
  destruct (Z.log2_spec n Hn) as [HL1 HL2]. fold L in HL1, HL2.
  destruct (Z.log2_spec (Z.pos d) ltac:(lia)) as [HD1 HD2]. fold D in HD1, HD2.
  assert (HL0 : (0 <= L)%Z) by apply Z.log2_nonneg.
  assert (HD0 : (0 <= D)%Z) by apply Z.log2_nonneg.
  assert (Ea : n # d == inject_Z n / inject_Z (Z.pos d)) by apply Qmake_Qdiv.
  assert (Hd : 0 < inject_Z (Z.pos d)) by reflexivity.
  assert (Hlo : pow2 (L - D - 1) < n # d).
  { rewrite Ea. apply Qlt_shift_div_l; [exact Hd |].
    apply Qlt_le_trans with (pow2 (L - D - 1) * pow2 (D + 1)).
    - apply Qmult_lt_l; [apply pow2_pos |].
      rewrite <- pow2_inject by lia. rewrite <- Zlt_Qlt. unfold Z.succ in HD2. exact HD2.
    - rewrite <- pow2_plus. replace (L - D - 1 + (D + 1))%Z with L by lia.
      rewrite <- pow2_inject by lia. rewrite <- Zle_Qle. exact HL1. }
  assert (Hhi : n # d < pow2 (L - D + 1)).
  { rewrite Ea. apply Qlt_shift_div_r; [exact Hd |].
    apply Qlt_le_trans with (pow2 (L + 1)).
    - rewrite <- pow2_inject by lia. rewrite <- Zlt_Qlt. unfold Z.succ in HL2. exact HL2.
    - replace (L + 1)%Z with (L - D + 1 + D)%Z by lia. rewrite pow2_plus.
      apply Qmult_le_l; [apply pow2_pos |].
      rewrite <- pow2_inject by lia. rewrite <- Zle_Qle. exact HD1. }
  set (a := n # d) in *.
  set (e0 := (L - D - 52)%Z).
  assert (He1 : exists e1, (if Qltb (a / pow2 e0) (pow2 52) then (e0 - 1)%Z else e0) = e1
                           /\ pow2 (e1 + 52) <= a /\ a < pow2 (e1 + 53)).
  { destruct (Qltb (a / pow2 e0) (pow2 52)) eqn:Htest.
    - exists (e0 - 1)%Z. split; [reflexivity |].
      apply Qltb_lt, scale_lt in Htest. rewrite <- pow2_plus in Htest.
      split.
      + apply Qlt_le_weak. replace (e0 - 1 + 52)%Z with (L - D - 1)%Z by (unfold e0; lia).
        exact Hlo.
      + replace (e0 - 1 + 53)%Z with (52 + e0)%Z by lia. exact Htest.
    - exists e0. split; [reflexivity |].
      apply Qltb_ge, scale_le in Htest. rewrite <- pow2_plus in Htest.
      split.
      + replace (e0 + 52)%Z with (52 + e0)%Z by lia. exact Htest.
      + replace (e0 + 53)%Z with (L - D + 1)%Z by (unfold e0; lia). exact Hhi. }
  destruct He1 as (e1 & -> & Hlo1 & Hhi1).
  destruct (Z.max_spec e1 (-1074)) as [[Hlt ->] | [Hge ->]].
  - split; [lia |]. split; [| lia].
    apply Qlt_le_trans with (pow2 (e1 + 53)); [exact Hhi1 | apply pow2_le; lia].
  - split; [lia |]. split; [exact Hhi1 | intros _; exact Hlo1].
Qed.

(** Rounding to the nearestDouble integer, ties to even. *)
Lemma roundHalfEven_floor (s : Q) :
  (Qfloor s <= roundHalfEven s <= Qfloor s + 1)%Z.
Proof.
  unfold roundHalfEven.
  destruct (Qltb _ _); [lia |]. destruct (Qltb _ _); [lia |].
  destruct (Z.even _); lia.
Qed.

Lemma roundHalfEven_integer (s : Q) (k : Z) : s == inject_Z k -> roundHalfEven s = k.
Proof.
  intros H. unfold roundHalfEven.
  assert (Hf : Qfloor s = k) by (rewrite (Qfloor_comp _ _ H); apply Qfloor_Z).
  rewrite Hf.
  assert (Hr : Qltb (s - inject_Z k) (1 # 2) = true).
  { apply Qltb_lt. rewrite H. lra. }
  rewrite Hr. reflexivity.
Qed.

Lemma roundHalfEven_monotone (s t : Q) : s <= t -> (roundHalfEven s <= roundHalfEven t)%Z.
Proof.
  intros Hle.
  pose proof (Qfloor_resp_le _ _ Hle) as Hfloor.
  pose proof (roundHalfEven_floor s) as Hs. pose proof (roundHalfEven_floor t) as Ht.
  destruct (Z.eq_dec (Qfloor s) (Qfloor t)) as [Heq | Hne]; [| lia].
  unfold roundHalfEven in *. rewrite <- Heq in *.
  set (f := Qfloor s) in *.
  destruct (Qltb (s - inject_Z f) (1 # 2)) eqn:Hs1; [lia |].
  apply Qltb_ge in Hs1.
  assert (Ht1 : Qltb (t - inject_Z f) (1 # 2) = false) by (apply Qltb_ge; lra).
  rewrite Ht1.
  destruct (Qltb (1 # 2) (s - inject_Z f)) eqn:Hs2.
  - apply Qltb_lt in Hs2.
    assert (Ht2 : Qltb (1 # 2) (t - inject_Z f) = true) by (apply Qltb_lt; lra).
    rewrite Ht2. lia.
  - destruct (Qltb (1 # 2) (t - inject_Z f)); destruct (Z.even f); lia.
Qed.

Lemma binary64_pos (x : Q) : 0 < x -> binary64 x = nearestDouble (Qabs x).
Proof.
  intros H. unfold binary64, nearestDouble.
  assert (E1 : Qeq_bool x 0 = false).
  { apply not_true_is_false. intros E. apply Qeq_bool_iff in E. lra. }
  assert (E2 : Qltb x 0 = false) by (apply Qltb_ge; lra).
  rewrite E1, E2. reflexivity.
Qed.

Lemma binary64_neg (x : Q) : x < 0 -> binary64 x == - nearestDouble (Qabs x).
Proof.
  intros H. unfold binary64, nearestDouble.
  assert (E1 : Qeq_bool x 0 = false).
  { apply not_true_is_false. intros E. apply Qeq_bool_iff in E. lra. }
  assert (E2 : Qltb x 0 = true) by (apply Qltb_lt; exact H).
  rewrite E1, E2. cbv zeta. ring.
Qed.

Lemma binary64_zero (x : Q) : x == 0 -> binary64 x = 0.
Proof.
  intros H. unfold binary64.
  assert (E1 : Qeq_bool x 0 = true) by (apply Qeq_bool_iff; exact H).
  rewrite E1. reflexivity.
Qed.

(** Where the nearestDouble double of a positive number lies. *)
Lemma nearest_bounds (a : Q) :
  0 < a ->
  0 <= nearestDouble a
  /\ nearestDouble a <= pow2 (binaryExponent a + 53)
  /\ ((-1074 < binaryExponent a)%Z -> pow2 (binaryExponent a + 52) <= nearestDouble a).
Proof.
  intros Ha. destruct (binaryExponent_spec a Ha) as (He & Hhi & Hlo).
  unfold nearestDouble. set (e := binaryExponent a) in *.
  set (s := a / pow2 e).
  pose proof (pow2_pos e) as HP.
  assert (Hs0 : 0 <= s).
  { unfold s. apply Qle_shift_div_l; [exact HP | lra]. }
  assert (Hs1 : s < pow2 53).
  { unfold s. apply scale_lt. rewrite <- pow2_plus.
    replace (53 + e)%Z with (e + 53)%Z by lia. exact Hhi. }
  pose proof (roundHalfEven_floor s) as Hm.
  assert (Hf0 : (0 <= Qfloor s)%Z).
  { rewrite <- (Qfloor_Z 0). apply Qfloor_resp_le. exact Hs0. }
  assert (Hf1 : (Qfloor s < 2 ^ 53)%Z).
  { rewrite Zlt_Qlt, pow2_inject by lia.
    apply Qle_lt_trans with s; [apply Qfloor_le | exact Hs1]. }
  split; [| split].
  - apply Qmult_le_0_compat; [| lra].
    change 0 with (inject_Z 0). rewrite <- Zle_Qle. lia.
  - replace (e + 53)%Z with (53 + e)%Z by lia. rewrite pow2_plus.
    apply Qmult_le_compat_r; [| lra].
    rewrite <- pow2_inject by lia. rewrite <- Zle_Qle. lia.
  - intros Hnormal. specialize (Hlo Hnormal).
    replace (e + 52)%Z with (52 + e)%Z by lia. rewrite pow2_plus.
    apply Qmult_le_compat_r; [| lra].
    rewrite <- pow2_inject by lia. rewrite <- Zle_Qle.
    apply Z.le_trans with (Qfloor s); [| lia].
    rewrite <- (Qfloor_Z (2 ^ 52)). apply Qfloor_resp_le.
    rewrite pow2_inject by lia. unfold s. apply scale_le. rewrite <- pow2_plus.
    replace (52 + e)%Z with (e + 52)%Z by lia. exact Hlo.
Qed.

(** To the nearestDouble double is monotone on positive numbers. *)
Lemma nearest_monotone (a b : Q) : 0 < a -> a <= b -> nearestDouble a <= nearestDouble b.
Proof.
  intros Ha Hab. assert (Hb : 0 < b) by lra.
  destruct (binaryExponent_spec a Ha) as (Hea & Hahi & Halo).
  destruct (binaryExponent_spec b Hb) as (Heb & Hbhi & Hblo).
  destruct (nearest_bounds a Ha) as (_ & Hnahi & _).
  destruct (nearest_bounds b Hb) as (_ & _ & Hnblo).
  destruct (Z.lt_trichotomy (binaryExponent a) (binaryExponent b)) as [Hlt | [Heq | Hgt]].
  - apply Qle_trans with (pow2 (binaryExponent a + 53)); [exact Hnahi |].
    apply Qle_trans with (pow2 (binaryExponent b + 52)); [apply pow2_le; lia |].
    apply Hnblo. lia.
  - unfold nearestDouble. rewrite Heq.
    apply Qmult_le_compat_r; [| apply Qlt_le_weak, pow2_pos].
    rewrite <- Zle_Qle. apply roundHalfEven_monotone.
    apply Qmult_le_compat_r; [exact Hab |].
    apply Qlt_le_weak, Qinv_lt_0_compat, pow2_pos.
  - exfalso. specialize (Halo ltac:(lia)).
    assert (H : pow2 (binaryExponent a + 52) < pow2 (binaryExponent b + 53)) by lra.
    apply pow2_lt_inv in H. lia.
Qed.

Lemma binary64_monotone (x y : Q) : x <= y -> binary64 x <= binary64 y.
Proof.
  intros Hxy.
  destruct (Q_dec x 0) as [[Hx | Hx] | Hx]; destruct (Q_dec y 0) as [[Hy | Hy] | Hy];
    try lra.
  - rewrite (binary64_neg x Hx), (binary64_neg y Hy).
    apply Qopp_le_compat. apply nearest_monotone.
    + rewrite Qabs_neg by lra. lra.
    + rewrite !Qabs_neg by lra. lra.
  - rewrite (binary64_neg x Hx), (binary64_pos y Hy).
    destruct (nearest_bounds (Qabs x)) as (H1 & _); [rewrite Qabs_neg by lra; lra |].
    destruct (nearest_bounds (Qabs y)) as (H2 & _); [rewrite Qabs_pos by lra; lra |].
    lra.
  - rewrite (binary64_neg x Hx), (binary64_zero y Hy).
    destruct (nearest_bounds (Qabs x)) as (H1 & _); [rewrite Qabs_neg by lra; lra |].
    lra.
  - rewrite (binary64_pos x Hx), (binary64_pos y Hy).
    apply nearest_monotone.
    + rewrite Qabs_pos by lra. exact Hx.
    + rewrite !Qabs_pos by lra. exact Hxy.
  - rewrite (binary64_zero x Hx), (binary64_pos y Hy).
    destruct (nearest_bounds (Qabs y)) as (H2 & _); [rewrite Qabs_pos by lra; lra |].
    lra.
  - rewrite (binary64_zero x Hx), (binary64_zero y Hy). lra.
Qed.

Lemma binary64_comp (x y : Q) : x == y -> binary64 x == binary64 y.
Proof.
  intros H. apply Qle_antisym; apply binary64_monotone; rewrite H; apply Qle_refl.
Qed.

Lemma significand_bounds (a : Q) :
  0 < a -> (0 <= roundHalfEven (a / pow2 (binaryExponent a)) <= 2 ^ 53)%Z.
Proof.
  intros Ha. destruct (binaryExponent_spec a Ha) as (He & Hhi & Hlo).
  set (e := binaryExponent a) in *. set (s := a / pow2 e).
  pose proof (pow2_pos e) as HP.
  assert (Hs0 : 0 <= s).
  { unfold s. apply Qle_shift_div_l; [exact HP | lra]. }
  assert (Hs1 : s < pow2 53).
  { unfold s. apply scale_lt. rewrite <- pow2_plus.
    replace (53 + e)%Z with (e + 53)%Z by lia. exact Hhi. }
  pose proof (roundHalfEven_floor s) as Hm.
  assert (Hf0 : (0 <= Qfloor s)%Z).
  { rewrite <- (Qfloor_Z 0). apply Qfloor_resp_le. exact Hs0. }
  assert (Hf1 : (Qfloor s < 2 ^ 53)%Z).
  { rewrite Zlt_Qlt, pow2_inject by lia.
    apply Qle_lt_trans with s; [apply Qfloor_le | exact Hs1]. }
  lia.
Qed.

Lemma nearest_exact (a : Q) (m e : Z) :
  0 < a -> (-1074 <= e)%Z -> (0 <= m <= 2 ^ 53)%Z -> a == inject_Z m * pow2 e ->
  nearestDouble a == a.
Proof.
  intros Ha He Hm Hrep.
  destruct (binaryExponent_spec a Ha) as (Hec & Hhi & Hlo).
  unfold nearestDouble. set (ec := binaryExponent a) in *.
  destruct (Z_le_gt_dec ec e) as [Hle | Hgt].
  - assert (Hs : a / pow2 ec == inject_Z (m * 2 ^ (e - ec))).
    { rewrite inject_Z_mult, pow2_inject by lia. rewrite Hrep.
      rewrite (Qpower_minus (2 # 1) e ec) by discriminate.
      field. apply Qpower_not_0. discriminate. }
    rewrite (roundHalfEven_integer _ _ Hs), <- Hs. apply unscale.
  - specialize (Hlo ltac:(lia)).
    assert (Hmax : a <= pow2 (e + 53)).
    { rewrite Hrep. replace (e + 53)%Z with (53 + e)%Z by lia. rewrite pow2_plus.
      apply Qmult_le_compat_r; [| apply Qlt_le_weak, pow2_pos].
      rewrite <- pow2_inject by lia. rewrite <- Zle_Qle. lia. }
    assert (Hexp : ec = (e + 1)%Z).
    { assert (H : pow2 (ec + 52) <= pow2 (e + 53)) by lra. apply pow2_le_inv in H. lia. }
    rewrite Hexp in *.
    replace (e + 1 + 52)%Z with (e + 53)%Z in Hlo by lia.
    assert (Ea : a == pow2 (e + 53)) by (apply Qle_antisym; assumption).
    assert (Hs : a / pow2 (e + 1) == inject_Z (2 ^ 52)).
    { rewrite pow2_inject by lia. rewrite Ea.
      replace (e + 53)%Z with (52 + (e + 1))%Z by lia. rewrite pow2_plus.
      field. apply Qpower_not_0. discriminate. }
    rewrite (roundHalfEven_integer _ _ Hs), <- Hs. apply unscale.
Qed.

(** A double is rounded to itself. *)
Lemma binary64_exact (x : Q) : representable x -> binary64 x == x.
Proof.
  intros (m & e & He & Hm & Hrep).
  pose proof (pow2_pos e) as HP.
  destruct (Q_dec x 0) as [[Hx | Hx] | Hx].
  - rewrite (binary64_neg x Hx).
    assert (Ha : Qabs x == - x) by (apply Qabs_neg; lra).
    assert (Hneg : (m < 0)%Z).
    { destruct (Z_lt_ge_dec m 0) as [H | H]; [exact H | exfalso].
      assert (0 <= inject_Z m) by (change 0 with (inject_Z 0); rewrite <- Zle_Qle; lia).
      assert (0 <= inject_Z m * pow2 e) by (apply Qmult_le_0_compat; lra).
      lra. }
    rewrite (nearest_exact (Qabs x) (- m) e); [lra | lra | exact He | lia |].
    rewrite inject_Z_opp, Ha, Hrep. ring.
  - rewrite (binary64_pos x Hx).
    assert (Ha : Qabs x == x) by (apply Qabs_pos; lra).
    assert (Hpos : (0 <= m)%Z).
    { destruct (Z_lt_ge_dec m 0) as [H | H]; [exfalso | lia].
      assert (inject_Z m <= 0) by (change 0 with (inject_Z 0); rewrite <- Zle_Qle; lia).
      assert (0 <= (- inject_Z m) * pow2 e) by (apply Qmult_le_0_compat; lra).
      lra. }
    rewrite (nearest_exact (Qabs x) m e); [lra | lra | exact He | lia |].
    rewrite Ha. exact Hrep.
  - rewrite (binary64_zero x Hx). symmetry. exact Hx.
Qed.

(** What [binary64] returns is a double. *)
Lemma binary64_representable (x : Q) : representable (binary64 x).
Proof.
  destruct (Q_dec x 0) as [[Hx | Hx] | Hx].
  - assert (Ha : 0 < Qabs x) by (rewrite Qabs_neg by lra; lra).
    pose proof (significand_bounds (Qabs x) Ha) as Hm.
    destruct (binaryExponent_spec (Qabs x) Ha) as (He & _).
    exists (- roundHalfEven (Qabs x / pow2 (binaryExponent (Qabs x))))%Z,
      (binaryExponent (Qabs x)).
    split; [exact He |]. split; [lia |].
    rewrite (binary64_neg x Hx). unfold nearestDouble. rewrite inject_Z_opp. ring.
  - assert (Ha : 0 < Qabs x) by (rewrite Qabs_pos by lra; lra).
    pose proof (significand_bounds (Qabs x) Ha) as Hm.
    destruct (binaryExponent_spec (Qabs x) Ha) as (He & _).
    exists (roundHalfEven (Qabs x / pow2 (binaryExponent (Qabs x)))),
      (binaryExponent (Qabs x)).
    split; [exact He |]. split; [lia |].
    rewrite (binary64_pos x Hx). reflexivity.
  - exists 0%Z, 0%Z. split; [lia |]. split; [cbn; lia |].
    rewrite (binary64_zero x Hx). reflexivity.
Qed.

(** [binary64] has what [rounding] asks for. *)
Lemma rounding_binary64 : rounding binary64.
Proof.
  split; [exact binary64_monotone |]. split; [reflexivity |]. split.
  - intros x. apply binary64_exact, binary64_representable.
  - intros x Hx. apply binary64_exact.
    destruct (binary64_representable x) as (m & e & He & Hm & Hrep).
    exists m, (e + 1)%Z. split; [lia |]. split; [exact Hm |].
    rewrite <- Hx, Hrep. rewrite pow2_plus. change (pow2 1) with (2 # 1). ring.
Qed.

End Binary64Facts.

(* ===================================================================== *)
(** ** services/randomWalk.ts *)
(* ===================================================================== *)

Section RandomWalkFacts.
#[local] Open Scope Q_scope.

(** The end-to-end scenario of the specification: from 4.0 in [2, 8] with
    no volatility the next speed is 4.2, towards the centre 5.0. *)
Example getNextValue_moves_to_center :
  getNextValue (1 # 2) 4 2 8 0 1 == 42 # 10.
Proof. reflexivity. Qed.

(** [getNextValue] is the rounding of a value between the limits: the
    clamp of step 5 holds before step 6 rounds. *)
Lemma getNextValue_rounds_clamped (random current min max volatility : Q)
    (precision : Z) :
  min <= max ->
  exists next, min <= next /\ next <= max
    /\ getNextValue random current min max volatility precision
       = roundToPrecision next precision.
Proof.
  intros Hle. unfold getNextValue. cbv zeta.
  eexists. split; [| split; [| reflexivity]]; apply clamp_within; exact Hle.
Qed.

(** Rounding moves a value by at most half a unit of the last digit. *)
Lemma roundToPrecision_error (x : Q) (precision : Z) :
  roundToPrecision x precision - x <= (1 # 2) / Math_pow10 precision
  /\ x - roundToPrecision x precision < (1 # 2) / Math_pow10 precision.
Proof.
  unfold roundToPrecision. cbv zeta.
  pose proof (Math_pow10_pos precision) as Hf.
  pose proof (Math_pow10_nonzero precision) as Hf0.
  set (f := Math_pow10 precision) in *.
  destruct (Math_round_nearest (x * f)) as [Hlo Hhi].
  set (n := Math_round (x * f)) in *.
  split.
  - assert (E : n / f - x == (n - x * f) / f) by (field; exact Hf0).
    rewrite E. apply Qmult_le_compat_r; [lra |].
    apply Qlt_le_weak, Qinv_lt_0_compat, Hf.
  - assert (E : x - n / f == (x * f - n) / f) by (field; exact Hf0).
    rewrite E. apply Qmult_lt_compat_r; [apply Qinv_lt_0_compat, Hf | lra].
Qed.

(** When both limits are multiples of the rounding unit, the rounded value
    stays between them. *)
Lemma roundToPrecision_within_grid_limits (x min max : Q) (precision : Z) (a b : Z) :
  min * Math_pow10 precision == inject_Z a ->
  max * Math_pow10 precision == inject_Z b ->
  min <= x -> x <= max ->
  min <= roundToPrecision x precision /\ roundToPrecision x precision <= max.
Proof.
  intros Ha Hb Hlo Hhi. unfold roundToPrecision, Math_round. cbv zeta.
  pose proof (Math_pow10_pos precision) as Hf.
  pose proof (Math_pow10_nonzero precision) as Hf0.
  set (f := Math_pow10 precision) in *.
  assert (Hinv : 0 <= / f) by (apply Qlt_le_weak, Qinv_lt_0_compat, Hf).
  assert (Hya : inject_Z a <= x * f).
  { rewrite <- Ha. apply Qmult_le_compat_r; [exact Hlo | apply Qlt_le_weak, Hf]. }
  assert (Hyb : x * f <= inject_Z b).
  { rewrite <- Hb. apply Qmult_le_compat_r; [exact Hhi | apply Qlt_le_weak, Hf]. }
  assert (Hna : (a <= Qfloor (x * f + (1 # 2)))%Z).
  { rewrite <- (Qfloor_Z a). apply Qfloor_resp_le. lra. }
  assert (Hnb : (Qfloor (x * f + (1 # 2)) <= b)%Z).
  { assert (E : Qfloor (inject_Z b + (1 # 2)) = b).
    { apply Qfloor_unique; rewrite ?inject_Z_plus; change (inject_Z 1) with 1; lra. }
    apply Z.le_trans with (Qfloor (inject_Z b + (1 # 2)));
      [apply Qfloor_resp_le; lra | rewrite E; lia]. }
  rewrite Zle_Qle in Hna, Hnb.
  assert (Emin : min == inject_Z a / f).
  { rewrite <- Ha. field. exact Hf0. }
  assert (Emax : max == inject_Z b / f).
  { rewrite <- Hb. field. exact Hf0. }
  rewrite Emin, Emax.
  split; apply Qmult_le_compat_r; assumption.
Qed.

(** C1, at the failing input: with the maximum 8.25, the current value at
    the maximum, volatility 1 and the draw 0.875, the clamped value 8.25 is
    rounded to 8.3, above the maximum. *)
Theorem getNextValue_exceeds_max :
  getNextValue (7 # 8) (33 # 4) 2 (33 # 4) 1 1 == 83 # 10
  /\ ~ getNextValue (7 # 8) (33 # 4) 2 (33 # 4) 1 1 <= 33 # 4.
Proof. split; vm_compute; [reflexivity | intros H; apply H; reflexivity]. Qed.

(** With exact arithmetic [getNextValueBinary64] is [getNextValue]. *)
Lemma getNextValueBinary64_exact (random current min max volatility : Q)
    (precision : Z) :
  getNextValueBinary64 exact Math_pow10 random current min max volatility precision
  = getNextValue random current min max volatility precision.
Proof. reflexivity. Qed.

(** The rounding step reads the value of its argument only. *)
Lemma roundToPrecisionBinary64_comp (fl : Q -> Q) (pow10 : Z -> Q) (x y : Q)
    (precision : Z) :
  rounding fl -> x == y ->
  roundToPrecisionBinary64 fl pow10 x precision
  = roundToPrecisionBinary64 fl pow10 y precision.
Proof.
  intros Hfl H. unfold roundToPrecisionBinary64. cbv zeta.
  rewrite (Math_round_comp (fl (x * pow10 precision)) (fl (y * pow10 precision)));
    [reflexivity |].
  apply rounding_comp; [exact Hfl | rewrite H; reflexivity].
Qed.

(** C2, as the code has it: the rounding step scales its argument, hands
    the product, as binary64 rounded it, to [Math.round], and divides the
    integer that comes back.  That integer is the one nearest to the
    product, a tie going up: the product rounded half away from zero,
    except at a negative tie, where it is one above. *)
Theorem rounding_step_ties_up (fl : Q -> Q) (pow10 : Z -> Q) (x : Q) (precision : Z) :
  exists n : Z,
    roundToPrecisionBinary64 fl pow10 x precision = fl (inject_Z n / pow10 precision)
    /\ inject_Z n - (1 # 2) <= fl (x * pow10 precision)
    /\ fl (x * pow10 precision) < inject_Z n + (1 # 2)
    /\ inject_Z n
       == roundHalfAway (fl (x * pow10 precision))
          + (if negativeHalfway (fl (x * pow10 precision)) then 1 else 0).
Proof.
  exists (Qfloor (fl (x * pow10 precision) + (1 # 2))).
  split; [reflexivity |].
  destruct (Math_round_nearest (fl (x * pow10 precision))) as [Hlo Hhi].
  split; [| split].
  - exact Hlo.
  - exact Hhi.
  - exact (Math_round_half_away (fl (x * pow10 precision))).
Qed.

(** C2 as stated fails at -0.25 with one digit: the code returns -0.2,
    rounding half away from zero gives -0.3. *)
Lemma roundToPrecision_negative_tie :
  roundToPrecision (- (1 # 4)) 1 == - (2 # 10)
  /\ roundHalfAwayFromZero (- (1 # 4)) 1 == - (3 # 10)
  /\ ~ roundToPrecision (- (1 # 4)) 1 == roundHalfAwayFromZero (- (1 # 4)) 1.
Proof. vm_compute. repeat split; discriminate. Qed.

(** With no volatility the noise is zero, whatever the draw. *)
Lemma noise_zero (fl : Q -> Q) (random : Q) :
  rounding fl -> fl (fl (fl (random * (2 # 1)) - 1) * 0) == 0.
Proof. intros Hfl. apply rounding_zero; [exact Hfl | ring]. Qed.




(** The rounding step in binary64, at the double nearest to 0.15: its
    product with 10 is rounded to 1.5, a tie, and the step returns 0.2; the
    exact product is below 1.5, and in exact arithmetic the step returns
    0.1.  The limits 0.05 and 0.25 have this centre. *)
Example rounding_step_rounds_the_product :
  binary64 (binary64 (15 # 100) * Math_pow10 1) == 15 # 10
  /\ roundToPrecisionBinary64 binary64 Math_pow10 (binary64 (15 # 100)) 1
     == binary64 (2 # 10)
  /\ roundToPrecision (binary64 (15 # 100)) 1 == 1 # 10
  /\ getNextValueBinary64 binary64 Math_pow10 (3 # 4)
       (binary64 (binary64 (binary64 (5 # 100) + binary64 (25 # 100)) / (2 # 1)))
       (binary64 (5 # 100)) (binary64 (25 # 100)) 0 1
     == binary64 (2 # 10).
Proof. vm_compute. repeat split; reflexivity. Qed.

(** A step in binary64 from 2.8 in the range [2, 5.1] without volatility:
    the drift brings it just below 2.95, and the step returns 2.9; in exact
    arithmetic on the decimal values it is 2.95, rounded to 3. *)
Example getNextValue_binary64_step :
  getNextValueBinary64 binary64 Math_pow10 (1 # 2) (binary64 (28 # 10)) 2
    (binary64 (51 # 10)) 0 1
  == binary64 (29 # 10)
  /\ getNextValue (1 # 2) (28 # 10) 2 (51 # 10) 0 1 == 3.
Proof. vm_compute. repeat split; reflexivity. Qed.


End RandomWalkFacts.

(* ===================================================================== *)
(** ** App.tsx: the message shapes *)
(* ===================================================================== *)

(** C3, as the code has it: for every parsed frame other than [null], and
    for speed and incline each on its own, a typed message decides first,
    then the nested shape unless it yields [undefined], then the flat
    shape. *)
Theorem rawValues_by_shape (msg : jsval) :
  rawValues msg
  = match msg with
    | JNull | JUndefined => None
    | _ => Some (speedByShape msg, inclineByShape msg)
    end.
Proof.
  destruct msg; try reflexivity;
    unfold rawValues, speedByShape, inclineByShape, typedNestedFlat, typedShape,
      nestedShape, flatShape;
    cbn [existsb firstNonNullish]; rewrite !orb_false_r;
    repeat match goal with
           | |- context [if ?b then _ else _] => destruct b eqn:?
           end;
    try reflexivity; try discriminate.
Qed.

(** C3 as stated fails on a frame with the flat field [speed: 5] and
    [type: "SET_SPEED"], [value: 6]: the extracted speed is 6, the typed
    value, and not 5, the flat field. *)
Lemma typed_message_overrides_flat_field :
  extractUpdate parseFloat_decimal frameFlatAndTyped.2 = Some (Some (6 # 1), None)
  /\ parseNumber parseFloat_decimal (flatShape ["speed"; "speedKmh"; "kph"; "spd"]
                                       frameFlatAndTyped.2) = Some (5 # 1)
  /\ (fst <$> extractUpdate parseFloat_decimal frameFlatAndTyped.2)
     <> Some (parseNumber parseFloat_decimal (getProp frameFlatAndTyped.2 "speed")).
Proof. vm_compute. repeat split; discriminate. Qed.

(** The examples of the specification. *)
Example extractUpdate_nested_speed :
  extractUpdate parseFloat_decimal frameSpeedOnly.2 = Some (Some (21 # 4), None).
Proof. reflexivity. Qed.

Example extractUpdate_unrecognised :
  extractUpdate parseFloat_decimal frameUnrecognised.2 = Some (None, None).
Proof. reflexivity. Qed.

Example extractUpdate_strings :
  extractUpdate parseFloat_decimal
    (JObj (<["speedKmh" := JStr "3.4"]> (<["inc" := JNum 1]> ∅)))
  = Some (Some (17 # 5), Some 1%Q).
Proof. reflexivity. Qed.

(** A nested reading that is not [undefined] keeps the flat field from
    being read, even when it yields no number: here a string that is no
    number, and a [null] under the last nested key. *)
Example nested_text_blocks_flat :
  extractUpdate parseFloat_decimal
    (JObj (<["data" := JObj (<["speed" := JStr "fast"]> ∅)]>
             (<["speed" := JNum (5 # 1)]> ∅)))
  = Some (None, None).
Proof. reflexivity. Qed.

Example nested_null_blocks_flat :
  extractUpdate parseFloat_decimal
    (JObj (<["data" := JObj (<["kph" := JNull]> ∅)]> (<["speed" := JNum (5 # 1)]> ∅)))
  = Some (None, None).
Proof. reflexivity. Qed.

(** A typed message without a [value] discards the flat field. *)
Example typed_without_value_discards_flat :
  extractUpdate parseFloat_decimal
    (JObj (<["type" := JStr "SPEED"]> (<["speed" := JNum (5 # 1)]> ∅)))
  = Some (None, None).
Proof. reflexivity. Qed.

(* ===================================================================== *)
(** ** App.tsx: the handlers *)
(* ===================================================================== *)

Section LinkManagerFacts.

Variable parseFloat : string -> option Q.
Variable JSON_parse : string -> option jsval.
Variable JSON_stringify : jsval -> string.
Variable WebSocket_new : string -> option string.

(** C10: after [addLog] the list holds at most 200 entries, the new one
    first, followed by the 199 newest of the old ones; what is dropped is
    the tail of the old list, its oldest entries. *)
Theorem addLog_bounded (message : string) (type : LogType) (now : Z) (st : App) :
  length (logs (addLog message type now st)) ≤ 200
  ∧ logs (addLog message type now st)
    = {| LogEntry.timestamp := now; LogEntry.message := message;
         LogEntry.type := type |} :: take 199 (logs st)
  ∧ {| LogEntry.timestamp := now; LogEntry.message := message;
       LogEntry.type := type |} :: logs st
    = logs (addLog message type now st) ++ drop 199 (logs st).
Proof.
  unfold addLog. cbn [logs withLogs]. split; [| split].
  - rewrite length_take. lia.
  - reflexivity.
  - change (take 200 (?e :: ?l)) with (e :: take 199 l).
    cbn [app]. rewrite take_drop. reflexivity.
Qed.

(** C4, as the code has it: when the target socket is missing or not open,
    [sendCommand] changes nothing: no text is handed to a socket, no log
    entry is added and nothing is kept for later. *)
Theorem sendCommand_dropped_silently (type : string) (value : option Q)
    (socket : option nat) (now : Z) (st : App) :
  (∀ ws target, targetWs socket st = Some ws → sockets st !! ws = Some target →
     WebSocket.readyState target ≠ WS_STATE_OPEN) →
  sendCommand JSON_stringify type value socket now st = st.
Proof.
  intros Hclosed. unfold sendCommand, targetIsOpen.
  destruct (targetWs socket st) as [ws |] eqn:Hws; cbn [mbind option_bind]; [| reflexivity].
  destruct (sockets st !! ws) as [target |] eqn:Htarget; [| reflexivity].
  destruct (Z.eqb_spec (WebSocket.readyState target) WS_STATE_OPEN) as [Hopen | _];
    [| reflexivity].
  exfalso. exact (Hclosed ws target eq_refl Htarget Hopen).
Qed.

(** On an open target the text is handed to that socket and logged. *)
Lemma sendCommand_transmits (type : string) (value : option Q)
    (socket : option nat) (now : Z) (st : App) (ws : nat) (target : WebSocket.t) :
  targetWs socket st = Some ws → sockets st !! ws = Some target →
  WebSocket.readyState target = WS_STATE_OPEN →
  let json := JSON_stringify (createProtocolMessage type value) in
  sockets (sendCommand JSON_stringify type value socket now st)
  = <[ws := WebSocket_send json target]> (sockets st)
  ∧ logs (sendCommand JSON_stringify type value socket now st)
    = take 200 ({| LogEntry.timestamp := now; LogEntry.message := "-> " +:+ json;
                   LogEntry.type := tx |} :: logs st).
Proof.
  intros Hws Htarget Hopen json. unfold sendCommand, targetIsOpen.
  rewrite Hws. cbn [mbind option_bind]. rewrite Htarget, Hopen. cbn.
  split; [| reflexivity].
  apply list_eq. intros i. destruct (decide (i = ws)) as [-> | Hne].
  - rewrite list_lookup_alter_eq, Htarget.
    rewrite list_lookup_insert_eq by (eapply lookup_lt_Some; eauto). reflexivity.
  - rewrite list_lookup_alter_ne, list_lookup_insert_ne by congruence. reflexivity.
Qed.


End LinkManagerFacts.

(* ===================================================================== *)
(** ** The event loop: invariants *)
(* ===================================================================== *)

Section EventLoopFacts.

Variable parseFloat : string -> option Q.
Variable JSON_parse : string -> option jsval.
Variable JSON_stringify : jsval -> string.
Variable WebSocket_new : string -> option string.

Abbreviation step' := (step parseFloat JSON_parse JSON_stringify WebSocket_new).
Abbreviation run' := (run parseFloat JSON_parse JSON_stringify WebSocket_new).

(** Only a received frame touches the telemetry. *)
Lemma step_treadmillRef (st : App) (turn : Z * Event) :
  (∀ ws data, turn.2 ≠ Received ws data) →
  treadmillRef (step' st turn) = treadmillRef st.
Proof.
  destruct turn as [now e]. intros Hother.
  destruct e; handlers; cbn -[take pretty]; cases; try reflexivity.
  all: exfalso; eapply Hother; reflexivity.
Qed.

Lemma onmessage_speed (data : string) (now : Z) (st : App) :
  speedKmh (treadmillRef (onmessage parseFloat JSON_parse data now st))
  = match JSON_parse data ≫= extractUpdate parseFloat with
    | Some (Some newSpeed, _) => newSpeed
    | _ => speedKmh (treadmillRef st)
    end.
Proof.
  unfold onmessage.
  destruct (JSON_parse data ≫= extractUpdate parseFloat) as [[[s |] [i |]] |];
    destruct (hasLoggedFirstMsg st); reflexivity.
Qed.

Lemma step_speed_nonnegative (st : App) (turn : Z * Event) :
  speedNotNegative parseFloat JSON_parse turn = true →
  (0 <= speedKmh (treadmillRef st))%Q →
  (0 <= speedKmh (treadmillRef (step' st turn)))%Q.
Proof.
  intros Hturn Hst.
  destruct turn as [now e].
  destruct e as [| | | | | ws data | | | | |];
    try (rewrite step_treadmillRef; [exact Hst | discriminate]).
  unfold step, speedNotNegative in *. cbn [fst snd] in *.
  destruct (sockets st !! ws); [| exact Hst].
  rewrite onmessage_speed.
  destruct (JSON_parse data ≫= extractUpdate parseFloat) as [[[s |] i] |];
    try exact Hst.
  apply Qle_bool_iff. exact Hturn.
Qed.

(** C8, as the code has it: the stored speed is whatever the last frame
    carried, so it stays non-negative along every trace none of whose
    frames yields a negative speed. *)
Theorem speed_stays_nonnegative (now : Z) (trace : list (Z * Event)) :
  forallb (speedNotNegative parseFloat JSON_parse) trace = true →
  (0 <= speedKmh (treadmillRef (run' trace (initialApp now))))%Q.
Proof.
  assert (Hgen : ∀ st, forallb (speedNotNegative parseFloat JSON_parse) trace = true →
            (0 <= speedKmh (treadmillRef st))%Q →
            (0 <= speedKmh (treadmillRef (run' trace st)))%Q).
  { induction trace as [| turn trace IH]; intros st Hall Hst; [exact Hst |].
    cbn [forallb] in Hall. apply andb_prop in Hall as [Hturn Hall].
    cbn [run fold_left]. apply IH; [exact Hall |].
    apply step_speed_nonnegative; assumption. }
  intros Hall. apply Hgen; [exact Hall |]. cbn. apply Qle_refl.
Qed.

(** The log never holds more than 200 entries. *)
Lemma step_logs_bounded (st : App) (turn : Z * Event) :
  length (logs st) ≤ 200 → length (logs (step' st turn)) ≤ 200.
Proof.
  destruct turn as [now e]. intros Hst.
  destruct e; handlers; cbn -[take pretty]; cases; cbn -[take pretty];
    rewrite ?length_take; lia.
Qed.

(** X27: in every state the component reaches, the log holds at most 200
    entries. *)
Lemma run_logs_bounded (now : Z) (trace : list (Z * Event)) :
  length (logs (run' trace (initialApp now))) ≤ 200.
Proof.
  assert (Hgen : ∀ st, length (logs st) ≤ 200 → length (logs (run' trace st)) ≤ 200).
  { induction trace as [| turn trace IH]; intros st Hst; [exact Hst |].
    cbn [run fold_left]. apply IH, step_logs_bounded, Hst. }
  apply Hgen. cbn. lia.
Qed.

(** A socket that has been superseded stays so: a new current socket is
    always a new position. *)
Lemma step_superseded (ws : nat) (st : App) (turn : Z * Event) :
  superseded ws st → superseded ws (step' st turn).
Proof.
  destruct turn as [now e]. intros [Hlt Hne]. unfold superseded.
  destruct e; handlers; cbn -[take pretty]; cases; cbn -[take pretty];
    rewrite ?length_app, ?length_alter; cbn; split; try lia; try congruence.
  all: intros [= E]; lia.
Qed.

Lemma run_superseded (ws : nat) (trace : list (Z * Event)) (st : App) :
  superseded ws st → superseded ws (run' trace st).
Proof.
  revert st. induction trace as [| turn trace IH]; intros st Hst; [exact Hst |].
  cbn [run fold_left]. apply IH, step_superseded, Hst.
Qed.

(** The timeout of a superseded socket does nothing when it elapses. *)
Lemma reconnect_superseded (t : Timeout.t) (now : Z) (st : App) :
  superseded (Timeout.ws t) st → reconnect WebSocket_new t now st = st.
Proof.
  intros [_ Hne]. unfold reconnect. case_decide; [contradiction | reflexivity].
Qed.

(** Well-formedness is an invariant of the event loop. *)
Lemma Forall_timeouts_weaken (n m : nat) (l : list Timeout.t) :
  n ≤ m → Forall (λ t, Timeout.ws t < n) l → Forall (λ t, Timeout.ws t < m) l.
Proof.
  intros Hnm Hl. eapply Forall_impl; [exact Hl |]. intros t Ht. simpl in *. lia.
Qed.

Lemma step_wellFormed (st : App) (turn : Z * Event) :
  wellFormed st → wellFormed (step' st turn).
Proof.
  destruct turn as [now e]. intros [Hcur Hpending]. unfold wellFormed.
  destruct e; handlers; cbn -[take pretty]; cases; cbn -[take pretty];
    rewrite ?length_app, ?length_alter; cbn [length];
    (split;
     [ intros ws' Hws'; first
         [ discriminate Hws'
         | injection Hws' as <-; lia
         | assert (ws' < length (sockets st)) by (apply Hcur; congruence); lia ]
     | try match goal with
           | E : timeouts st = _ |- _ => rewrite ?E in *
           end;
       try (apply Forall_cons_iff in Hpending; destruct Hpending as [_ Hpending]);
       first
         [ eapply Forall_timeouts_weaken; [| exact Hpending]; lia
         | apply Forall_app; split;
           [ exact Hpending
           | apply Forall_cons; split; [cbn; apply Hcur; congruence | constructor] ] ] ]).
Qed.

Lemma run_wellFormed (trace : list (Z * Event)) (st : App) :
  wellFormed st → wellFormed (run' trace st).
Proof.
  revert st. induction trace as [| turn trace IH]; intros st Hst; [exact Hst |].
  cbn [run fold_left]. apply IH, step_wellFormed, Hst.
Qed.

Lemma initialApp_wellFormed (now : Z) : wellFormed (initialApp now).
Proof. split; [intros ws; discriminate | constructor]. Qed.

End EventLoopFacts.

(* ===================================================================== *)
(** ** App.tsx: reconnecting *)
(* ===================================================================== *)

Section ReconnectFacts.

Variable parseFloat : string -> option Q.
Variable JSON_parse : string -> option jsval.
Variable JSON_stringify : jsval -> string.
Variable WebSocket_new : string -> option string.

Abbreviation run' := (run parseFloat JSON_parse JSON_stringify WebSocket_new).

Lemma onclose_current (wsUrl : string) (ws : nat) (code now : Z) (st : App) :
  wsRef st = Some ws →
  timeouts (onclose wsUrl ws code now st)
  = timeouts st
    ++ [{| Timeout.delay := 3000; Timeout.ws := ws; Timeout.wsUrl := wsUrl |}]
  ∧ wsStatus (onclose wsUrl ws code now st) = DISCONNECTED
  ∧ wsRef (onclose wsUrl ws code now st) = Some ws
  ∧ sockets (onclose wsUrl ws code now st) = sockets st.
Proof.
  intros Hcur. unfold onclose. case_decide; [| contradiction].
  repeat split; try reflexivity. exact Hcur.
Qed.

(** A close notification for a socket that is not the current one does
    nothing. *)
Lemma onclose_superseded (wsUrl : string) (ws : nat) (code now : Z) (st : App) :
  wsRef st ≠ Some ws → onclose wsUrl ws code now st = st.
Proof. intros Hne. unfold onclose. case_decide; [contradiction | reflexivity]. Qed.

Lemma cleanup_clears (st : App) :
  wsRef (cleanup st) = None
  ∧ timeouts (cleanup st) = timeouts st
  ∧ length (sockets (cleanup st)) = length (sockets st).
Proof.
  unfold cleanup. destruct (wsRef st); cbn; rewrite ?length_alter; auto.
Qed.

(** The same timeout elapsing twice creates at most one socket: the first
    run either fails to create one, or makes the new socket current, and
    then the second run finds its own socket superseded. *)
Lemma reconnect_twice (t : Timeout.t) (now1 now2 : Z) (st : App) :
  (∀ ws, wsRef st = Some ws → ws < length (sockets st)) →
  length (sockets (reconnect WebSocket_new t now2 (reconnect WebSocket_new t now1 st)))
  ≤ S (length (sockets st)).
Proof.
  intros Hcur. unfold reconnect at 2.
  destruct (decide (wsRef st = Some (Timeout.ws t))) as [Heq | Hne].
  - unfold connectWebSocket.
    destruct (alreadyConnected (Timeout.wsUrl t) st) eqn:Hconn.
    + unfold reconnect, connectWebSocket. rewrite Hconn. case_decide; lia.
    + rewrite Heq. destruct (WebSocket_new (Timeout.wsUrl t)) as [url |] eqn:Hnew.
      * rewrite reconnect_superseded.
        -- cbn. rewrite length_app, length_alter. cbn. lia.
        -- split; cbn; rewrite ?length_app, ?length_alter; cbn.
           ++ specialize (Hcur _ Heq). lia.
           ++ intros [= E]. specialize (Hcur _ Heq). lia.
      * unfold reconnect, connectWebSocket. cbn -[take alter].
        rewrite Heq. case_decide; [| cbn -[take alter]; rewrite ?length_alter; lia].
        rewrite Hnew.
        match goal with
        | |- context [if ?b then _ else _] => destruct b
        end; cbn -[take alter]; rewrite ?length_alter; lia.
  - unfold reconnect. case_decide; [contradiction | lia].
Qed.

(** After the cleanup no pending timeout does anything when it elapses,
    whatever happened in between. *)
Lemma cleanup_disarms (st : App) (t : Timeout.t) (trace : list (Z * Event)) (now : Z) :
  wellFormed st → t ∈ timeouts st →
  reconnect WebSocket_new t now (run' trace (cleanup st)) = run' trace (cleanup st).
Proof.
  intros [_ Hpending] Hin.
  apply reconnect_superseded, run_superseded.
  destruct (cleanup_clears st) as (Hnone & _ & Hlen).
  split; [| rewrite Hnone; discriminate].
  rewrite Hlen. rewrite Forall_forall in Hpending. apply Hpending, Hin.
Qed.

(** [connectWebSocket] on a link whose current socket is not open, with a
    URL the constructor accepts: the current socket is closed, a new socket
    is created in state CONNECTING and becomes the current one. *)
Lemma connectWebSocket_creates (wsUrl url : string) (ws : nat) (now : Z) (st : App) :
  wsRef st = Some ws → currentIsOpen st = false → WebSocket_new wsUrl = Some url →
  sockets (connectWebSocket WebSocket_new wsUrl now st)
  = alter WebSocket_close ws (sockets st)
    ++ [{| WebSocket.url := url; WebSocket.readyState := WS_STATE_CONNECTING;
           WebSocket.sent := []; WebSocket.wsUrl := wsUrl |}]
  ∧ wsRef (connectWebSocket WebSocket_new wsUrl now st) = Some (length (sockets st))
  ∧ wsStatus (connectWebSocket WebSocket_new wsUrl now st) = CONNECTING.
Proof.
  intros Hws Hopen Hnew. unfold connectWebSocket.
  assert (Hconn : alreadyConnected wsUrl st = false).
  { unfold currentIsOpen, targetIsOpen, targetWs in Hopen. unfold alreadyConnected.
    destruct (wsRef st ≫= (λ ws, sockets st !! ws)); [| reflexivity].
    rewrite Hopen. apply andb_false_r. }
  rewrite Hconn, Hws, Hnew. cbn -[alter]. rewrite length_alter. auto.
Qed.

(** C5, as the code has it.  A close notification for the current socket
    schedules one timeout of 3000 ms and reports the link disconnected; a
    second notification for the same socket schedules a second timeout;
    when both have elapsed at most one socket has been created; the
    cleanup cancels no timeout, but after it no pending timeout creates a
    socket or changes anything, whatever happened in between.  A timeout
    that elapses while its socket is still the current one calls
    [connectWebSocket]; with that socket no longer open and a URL the
    constructor accepts, this creates a socket in state CONNECTING and makes
    it the current one, and of two such timeouts exactly the first does. *)
Theorem close_schedules_reconnect (wsUrl : string) (ws : nat) (code now : Z)
    (st : App) :
  wellFormed st → wsRef st = Some ws →
  let t := {| Timeout.delay := 3000; Timeout.ws := ws; Timeout.wsUrl := wsUrl |} in
  let st1 := onclose wsUrl ws code now st in
  timeouts st1 = timeouts st ++ [t]
  ∧ wsStatus st1 = DISCONNECTED
  ∧ (∀ code' now',
       let st2 := onclose wsUrl ws code' now' st1 in
       timeouts st2 = timeouts st ++ [t; t]
       ∧ ∀ now1 now2,
           length (sockets (reconnect WebSocket_new t now2
                              (reconnect WebSocket_new t now1 st2)))
           ≤ S (length (sockets st2)))
  ∧ timeouts (cleanup st1) = timeouts st1
  ∧ (∀ t' trace now', t' ∈ timeouts st1 →
       reconnect WebSocket_new t' now' (run' trace (cleanup st1))
       = run' trace (cleanup st1))
  ∧ (∀ now',
       reconnect WebSocket_new t now' st1 = connectWebSocket WebSocket_new wsUrl now' st1)
  ∧ (∀ url, currentIsOpen st = false → WebSocket_new wsUrl = Some url →
       (∀ now',
          sockets (reconnect WebSocket_new t now' st1)
          = alter WebSocket_close ws (sockets st)
            ++ [{| WebSocket.url := url; WebSocket.readyState := WS_STATE_CONNECTING;
                   WebSocket.sent := []; WebSocket.wsUrl := wsUrl |}]
          ∧ wsRef (reconnect WebSocket_new t now' st1) = Some (length (sockets st))
          ∧ wsStatus (reconnect WebSocket_new t now' st1) = CONNECTING)
       ∧ (∀ code' now' now1 now2,
            let st2 := onclose wsUrl ws code' now' st1 in
            length (sockets (reconnect WebSocket_new t now2
                               (reconnect WebSocket_new t now1 st2)))
            = S (length (sockets st))
            ∧ wsRef (reconnect WebSocket_new t now2 (reconnect WebSocket_new t now1 st2))
              = Some (length (sockets st)))).
Proof.
  intros [Hcur Hpending] Hws t st1.
  destruct (onclose_current wsUrl ws code now st Hws) as (Ht1 & Hs1 & Hr1 & Hk1).
  fold st1 in Ht1, Hs1, Hr1, Hk1. fold t in Ht1.
  assert (Hwf1 : wellFormed st1).
  { split.
    - intros ws' Hws'. rewrite Hk1. apply Hcur. congruence.
    - rewrite Ht1, Hk1. apply Forall_app. split; [exact Hpending |].
      apply Forall_cons. split; [cbn; apply Hcur, Hws | constructor]. }
  assert (Hcall : ∀ now' st', wsRef st' = Some ws →
            reconnect WebSocket_new t now' st' = connectWebSocket WebSocket_new wsUrl now' st').
  { intros now' st' Href. unfold reconnect. cbn [Timeout.ws Timeout.wsUrl t].
    case_decide; [reflexivity | contradiction]. }
  assert (Hopen1 : ∀ st', wsRef st' = Some ws → sockets st' = sockets st →
            currentIsOpen st' = currentIsOpen st).
  { intros st' Href Hk. unfold currentIsOpen, targetIsOpen, targetWs.
    rewrite Href, Hws, Hk. reflexivity. }
  split; [exact Ht1 |]. split; [exact Hs1 |]. split; [| split; [| split; [| split]]].
  - intros code' now' st2.
    destruct (onclose_current wsUrl ws code' now' st1 Hr1) as (Ht2 & _ & Hr2 & Hk2).
    fold st2 in Ht2, Hr2, Hk2. fold t in Ht2. split.
    + rewrite Ht2, Ht1, <- app_assoc. reflexivity.
    + intros now1 now2. apply reconnect_twice.
      intros ws' Hws'. rewrite Hk2, Hk1. apply Hcur. congruence.
  - apply cleanup_clears.
  - intros t' trace now' Hin. apply cleanup_disarms; assumption.
  - intros now'. apply Hcall, Hr1.
  - intros url Hopen Hnew. split.
    + intros now'. rewrite (Hcall now' st1 Hr1), <- Hk1.
      apply connectWebSocket_creates; [exact Hr1 | | exact Hnew].
      rewrite (Hopen1 st1 Hr1 Hk1). exact Hopen.
    + intros code' now' now1 now2 st2.
      destruct (onclose_current wsUrl ws code' now' st1 Hr1) as (_ & _ & Hr2 & Hk2).
      fold st2 in Hr2, Hk2. rewrite Hk1 in Hk2.
      destruct (connectWebSocket_creates wsUrl url ws now1 st2 Hr2) as (Hk3 & Hr3 & _);
        [rewrite (Hopen1 st2 Hr2 Hk2); exact Hopen | exact Hnew |].
      rewrite <- (Hcall now1 st2 Hr2) in Hk3, Hr3.
      rewrite reconnect_superseded.
      * rewrite Hk3, Hr3, Hk2, length_app, length_alter. cbn. split; [lia | reflexivity].
      * split; cbn [Timeout.ws t].
        -- rewrite Hk3, length_app, length_alter, Hk2. specialize (Hcur ws Hws). lia.
        -- rewrite Hr3, Hk2. intros [= E]. specialize (Hcur ws Hws). lia.
Qed.

End ReconnectFacts.

(* ===================================================================== *)
(** ** components/ControlPanel.tsx *)
(* ===================================================================== *)

(** [handleChange] stores whatever number the text reads as. *)
Lemma handleChange_stores (parseFloat : string → option Q) (section : SectionKey)
    (value : string) (numVal : Q) (config : ScenarioConfig.t) :
  parseFloat value = Some numVal →
  ∃ config',
    handleChange parseFloat section KeyUpdateInterval value config = Some config'
    ∧ Range.updateInterval (getSection section config') = numVal.
Proof.
  intros Hparse. unfold handleChange. rewrite Hparse.
  eexists. split; [reflexivity |]. destruct section; reflexivity.
Qed.

(** C6, at the failing input: typing 0.5 into the speed "Interval (s)"
    input hands [onConfigChange] a configuration whose speed interval is
    500 ms, and the speed loop is armed with that period. *)
Theorem interval_below_one_second_accepted :
  intervalOnChange parseFloat_decimal Number_toString_decimal SectionSpeed "0.5"
    initialScenarioConfig
  = Some (setSection SectionSpeed
            (setRangeField KeyUpdateInterval (500 # 1)
               (ScenarioConfig.speed initialScenarioConfig))
            initialScenarioConfig)
  ∧ speedLoopPeriod true
      (setSection SectionSpeed
         (setRangeField KeyUpdateInterval (500 # 1)
            (ScenarioConfig.speed initialScenarioConfig))
         initialScenarioConfig)
    = Some (500 # 1)
  ∧ (500 # 1 < 1000 # 1)%Q.
Proof. split; [| split]; reflexivity. Qed.

(* ===================================================================== *)
(** ** The handlers on the concrete host *)
(* ===================================================================== *)

Lemma linkUp_wellFormed : wellFormed linkUp.
Proof.
  apply run_wellFormed, initialApp_wellFormed.
Qed.

(** Once the socket is closed a command is dropped: the state, its log
    included, is what it was. *)
Lemma sendCommand_dropped_silently_witness :
  sendCommand JSON_stringify_message "SET_SPEED_NOW" (Some (5 # 1)) None 4 linkDown
  = linkDown.
Proof.
  apply (sendCommand_dropped_silently JSON_stringify_message
           "SET_SPEED_NOW" (Some (5 # 1)) None 4 linkDown).
  intros ws target Hws Htarget.
  vm_compute in Hws. injection Hws as <-.
  vm_compute in Htarget. injection Htarget as <-.
  vm_compute. discriminate.
Defined.

(** C4 as stated fails on the closed link: the link is reported
    disconnected, the command is not transmitted, and no log entry is
    added for it. *)
Lemma suppressed_send_leaves_no_log :
  wsStatus linkDown = DISCONNECTED
  ∧ sockets (sendCommand JSON_stringify_message "SET_SPEED_NOW" (Some (5 # 1)) None 4
               linkDown)
    = sockets linkDown
  ∧ ¬ ∃ entry,
        logs (sendCommand JSON_stringify_message "SET_SPEED_NOW" (Some (5 # 1)) None 4
                linkDown)
        = entry :: logs linkDown.
Proof.
  split; [reflexivity |]. split; [reflexivity |].
  intros [entry H]. apply (f_equal length) in H. vm_compute in H. discriminate.
Qed.

(** On the open link the same command is transmitted and logged. *)
Example sendCommand_on_open_link :
  WebSocket.sent
  <$> sockets (sendCommand JSON_stringify_message "GET_STATE" None None 4 linkUp) !! 0
  = Some ["{" +:+ quoted "type" +:+ ":" +:+ quoted "REQUEST_CONTROL" +:+ "}";
          "{" +:+ quoted "type" +:+ ":" +:+ quoted "GET_STATE" +:+ "}";
          "{" +:+ quoted "type" +:+ ":" +:+ quoted "GET_STATE" +:+ "}"].
Proof. reflexivity. Qed.

Lemma close_schedules_reconnect_witness :
  wellFormed linkClosing ∧ wsRef linkClosing = Some 0
  ∧ timeouts (onclose sampleUrl 0 1006 3 linkClosing)
    = timeouts linkClosing
      ++ [{| Timeout.delay := 3000; Timeout.ws := 0; Timeout.wsUrl := sampleUrl |}]
  ∧ wsStatus (onclose sampleUrl 0 1006 3 linkClosing) = DISCONNECTED
  ∧ wsRef (reconnect WebSocket_new_ws
             {| Timeout.delay := 3000; Timeout.ws := 0; Timeout.wsUrl := sampleUrl |}
             3003 (onclose sampleUrl 0 1006 3 linkClosing))
    = Some (length (sockets linkClosing))
  ∧ wsStatus (reconnect WebSocket_new_ws
                {| Timeout.delay := 3000; Timeout.ws := 0; Timeout.wsUrl := sampleUrl |}
                3003 (onclose sampleUrl 0 1006 3 linkClosing))
    = CONNECTING.
Proof.
  assert (Hwf : wellFormed linkClosing).
  { split; [intros ws [= <-]; vm_compute; lia | vm_compute; constructor]. }
  assert (Hws : wsRef linkClosing = Some 0) by reflexivity.
  pose proof (close_schedules_reconnect parseFloat_decimal (JSON_parse_table frames)
                JSON_stringify_message WebSocket_new_ws sampleUrl 0 1006 3 linkClosing
                Hwf Hws) as H.
  cbv zeta in H. destruct H as (Htimeouts & Hstatus & _ & _ & _ & _ & Hcreates).
  assert (Hopen : currentIsOpen linkClosing = false) by reflexivity.
  assert (Hnew : WebSocket_new_ws sampleUrl = Some sampleUrl) by reflexivity.
  destruct (Hcreates sampleUrl Hopen Hnew) as [Hfirst _].
  destruct (Hfirst 3003%Z) as (_ & Href & Hstatus').
  exact (conj Hwf (conj Hws (conj Htimeouts (conj Hstatus (conj Href Hstatus'))))).
Defined.

(** A close notification on the open link reaches [onclose] with the socket
    closed already: the link down is that handler run on the closing link. *)
Example linkDown_is_onclose : linkDown = onclose sampleUrl 0 1006 3 linkClosing.
Proof. reflexivity. Qed.

(** C5 as stated fails on a duplicate close notification: on the connected
    link two notifications for socket 0 leave two timeouts pending. *)
Lemma duplicate_close_schedules_twice :
  wsStatus linkUp = CONNECTED
  ∧ length (timeouts (runOnHost [(3%Z, Closed 0 1006); (4%Z, Closed 0 1006)] linkUp)) = 2
  ∧ ¬ length (timeouts (runOnHost [(3%Z, Closed 0 1006); (4%Z, Closed 0 1006)] linkUp))
      ≤ 1.
Proof.
  split; [reflexivity |]. split; [reflexivity |]. vm_compute. lia.
Qed.

(** When both timeouts elapse one socket is created, and it is the
    current one. *)
Example duplicate_close_reconnects_once :
  length (sockets (runOnHost [(3%Z, Closed 0 1006); (4%Z, Closed 0 1006);
                              (3003%Z, TimeoutElapsed); (3004%Z, TimeoutElapsed)]
                     linkUp)) = 2
  ∧ wsRef (runOnHost [(3%Z, Closed 0 1006); (4%Z, Closed 0 1006);
                      (3003%Z, TimeoutElapsed); (3004%Z, TimeoutElapsed)]
             linkUp) = Some 1.
Proof. split; reflexivity. Qed.

Lemma speed_stays_nonnegative_witness :
  forallb (speedNotNegative parseFloat_decimal (JSON_parse_table frames)) telemetryTrace
  = true
  ∧ (0 <= speedKmh (treadmillRef (runOnHost telemetryTrace (initialApp 0))))%Q.
Proof.
  assert (H : forallb (speedNotNegative parseFloat_decimal (JSON_parse_table frames))
                telemetryTrace = true) by reflexivity.
  split; [exact H |].
  exact (speed_stays_nonnegative parseFloat_decimal (JSON_parse_table frames)
           JSON_stringify_message WebSocket_new_ws 0 telemetryTrace H).
Defined.

(** C8 as stated fails on a frame that carries a negative speed: it is
    stored as it is. *)
Lemma negative_speed_is_stored :
  speedKmh (treadmillRef
              (runOnHost [(1%Z, Mount sampleUrl); (2%Z, Opened 0);
                          (3%Z, Received 0 frameNegativeSpeed.1)] (initialApp 0)))
  = (- 5 # 1)%Q
  ∧ ¬ (0 <= speedKmh (treadmillRef
                        (runOnHost [(1%Z, Mount sampleUrl); (2%Z, Opened 0);
                                    (3%Z, Received 0 frameNegativeSpeed.1)]
                           (initialApp 0))))%Q.
Proof.
  split; [reflexivity |]. vm_compute. intros H. apply H. reflexivity.
Qed.


(* ===================================================================== *)
(** * More of the code *)
(* ===================================================================== *)

(* ===================================================================== *)
(** ** services/randomWalk.ts: what a step can and cannot do *)
(* ===================================================================== *)

Section RandomWalkMore.
#[local] Open Scope Q_scope.

(** X4: a current value outside the range counts as the nearest limit. *)
Theorem getNextValue_clamps_current (random current min max volatility : Q)
    (precision : Z) :
  min <= max ->
  (current < min ->
   getNextValue random current min max volatility precision
   = getNextValue random min min max volatility precision)
  /\ (max < current ->
      getNextValue random current min max volatility precision
      = getNextValue random max min max volatility precision).
Proof.
  intros Hle. split; intros Hout; unfold getNextValue.
  - assert (E1 : Qltb current min = true) by (apply Qltb_lt; exact Hout).
    assert (E2 : Qltb max current = false) by (apply Qltb_ge; lra).
    assert (E3 : Qltb min min = false) by (apply Qltb_ge; lra).
    assert (E4 : Qltb max min = false) by (apply Qltb_ge; exact Hle).
    rewrite ?E2, ?E1, ?E3, ?E4. reflexivity.
  - assert (E1 : Qltb max current = true) by (apply Qltb_lt; exact Hout).
    assert (E2 : Qltb current min = false) by (apply Qltb_ge; lra).
    assert (E3 : Qltb max min = false) by (apply Qltb_ge; exact Hle).
    assert (E4 : Qltb max max = false) by (apply Qltb_ge; lra).
    rewrite ?E2, ?E1, ?E3, ?E4. reflexivity.
Qed.

Lemma getNextValue_clamps_current_witness :
  getNextValue (1 # 4) 0 2 8 (1 # 2) 1 = getNextValue (1 # 4) 2 2 8 (1 # 2) 1
  /\ getNextValue (1 # 4) 12 2 8 (1 # 2) 1 = getNextValue (1 # 4) 8 2 8 (1 # 2) 1.
Proof.
  assert (H : 2 <= 8) by (vm_compute; discriminate).
  split.
  - apply (proj1 (getNextValue_clamps_current (1 # 4) 0 2 8 (1 # 2) 1 H)).
    vm_compute. reflexivity.
  - apply (proj2 (getNextValue_clamps_current (1 # 4) 12 2 8 (1 # 2) 1 H)).
    vm_compute. reflexivity.
Defined.

(** X5: with no volatility the draw does not matter: the noise is the
    draw's offset times zero, and two calls that differ in the draw only
    return the same value. *)
Theorem getNextValue_zero_volatility (fl : Q -> Q) (pow10 : Z -> Q)
    (random1 random2 current min max : Q) (precision : Z) :
  rounding fl ->
  getNextValueBinary64 fl pow10 random1 current min max 0 precision
  = getNextValueBinary64 fl pow10 random2 current min max 0 precision.
Proof.
  intros Hfl. unfold getNextValueBinary64. cbv zeta.
  apply roundToPrecisionBinary64_comp; [exact Hfl |].
  match goal with
  | |- Qmax _ (Qmin _ (fl (?d + _))) == _ =>
      rewrite (rounding_comp fl (d + fl (fl (fl (random1 * (2 # 1)) - 1) * 0)) (d + 0) Hfl)
        by (rewrite (noise_zero fl random1 Hfl); reflexivity);
      rewrite (rounding_comp fl (d + fl (fl (fl (random2 * (2 # 1)) - 1) * 0)) (d + 0) Hfl)
        by (rewrite (noise_zero fl random2 Hfl); reflexivity)
  end.
  reflexivity.
Qed.

Lemma getNextValue_zero_volatility_witness :
  getNextValueBinary64 binary64 Math_pow10 (binary64 (1 # 10)) (binary64 (28 # 10)) 2
    (binary64 (51 # 10)) 0 1
  = getNextValueBinary64 binary64 Math_pow10 (binary64 (9 # 10)) (binary64 (28 # 10)) 2
      (binary64 (51 # 10)) 0 1.
Proof.
  apply (getNextValue_zero_volatility binary64 Math_pow10 (binary64 (1 # 10))
           (binary64 (9 # 10)) (binary64 (28 # 10)) 2 (binary64 (51 # 10)) 1
           rounding_binary64).
Defined.

End RandomWalkMore.

(* ===================================================================== *)
(** ** App.tsx: the link, the loops, the charts and the recording *)
(* ===================================================================== *)

Section LinkManagerMore.

Variable parseFloat : string -> option Q.
Variable JSON_parse : string -> option jsval.
Variable JSON_stringify : jsval -> string.
Variable WebSocket_new : string -> option string.

Abbreviation step' := (step parseFloat JSON_parse JSON_stringify WebSocket_new).
Abbreviation run' := (run parseFloat JSON_parse JSON_stringify WebSocket_new).

(** [sendCommand] leaves the current socket and every [readyState] alone. *)
Lemma sendCommand_link (type : string) (value : option Q) (socket : option nat)
    (now : Z) (st : App) :
  wsRef (sendCommand JSON_stringify type value socket now st) = wsRef st
  ∧ (∀ ws, WebSocket.readyState
           <$> sockets (sendCommand JSON_stringify type value socket now st) !! ws
           = WebSocket.readyState <$> sockets st !! ws)
  ∧ commandRef (sendCommand JSON_stringify type value socket now st) = commandRef st
  ∧ treadmillRef (sendCommand JSON_stringify type value socket now st) = treadmillRef st.
Proof.
  unfold sendCommand. destruct (targetIsOpen socket st); [| auto].
  destruct (targetWs socket st) as [target |]; [| auto].
  cbn -[take]. repeat split; try reflexivity.
  intros ws. destruct (decide (ws = target)) as [-> | Hne].
  - rewrite list_lookup_alter_eq. destruct (sockets st !! target); reflexivity.
  - rewrite list_lookup_alter_ne by congruence. reflexivity.
Qed.

Lemma targetIsOpen_ext (socket : option nat) (st st' : App) :
  wsRef st' = wsRef st →
  (∀ ws, WebSocket.readyState <$> sockets st' !! ws
         = WebSocket.readyState <$> sockets st !! ws) →
  targetIsOpen socket st' = targetIsOpen socket st.
Proof.
  intros Href Hready. unfold targetIsOpen, targetWs. rewrite Href.
  destruct (match socket with Some ws => Some ws | None => wsRef st end) as [ws |];
    [| reflexivity].
  cbn. specialize (Hready ws).
  destruct (sockets st' !! ws), (sockets st !! ws); cbn in *; congruence.
Qed.

Lemma speedTick_link (speed : Range.t) (random : Q) (now : Z) (st : App) :
  currentIsOpen (speedTick JSON_stringify speed random now st) = currentIsOpen st
  ∧ Command.incline (commandRef (speedTick JSON_stringify speed random now st))
    = Command.incline (commandRef st)
  ∧ Command.speed (commandRef (speedTick JSON_stringify speed random now st))
    = if currentIsOpen st
      then getNextValue random (Command.speed (commandRef st)) (Range.min speed)
             (Range.max speed) (Range.volatility speed) 1
      else Command.speed (commandRef st).
Proof.
  unfold speedTick. destruct (currentIsOpen st) eqn:Hopen; cbn [negb]; [| auto].
  match goal with
  | |- context [sendCommand _ ?t ?v ?s ?n ?st0] =>
      destruct (sendCommand_link t v s n st0) as (Href & Hready & Hcmd & _)
  end.
  split; [| split; rewrite Hcmd; reflexivity].
  unfold currentIsOpen. erewrite targetIsOpen_ext; [| exact Href | exact Hready].
  exact Hopen.
Qed.

Lemma inclineTick_link (incline : Range.t) (random : Q) (now : Z) (st : App) :
  currentIsOpen (inclineTick JSON_stringify incline random now st) = currentIsOpen st
  ∧ Command.speed (commandRef (inclineTick JSON_stringify incline random now st))
    = Command.speed (commandRef st)
  ∧ Command.incline (commandRef (inclineTick JSON_stringify incline random now st))
    = if currentIsOpen st
      then getNextValue random (Command.incline (commandRef st)) (Range.min incline)
             (Range.max incline) (Range.volatility incline) 1
      else Command.incline (commandRef st).
Proof.
  unfold inclineTick. destruct (currentIsOpen st) eqn:Hopen; cbn [negb]; [| auto].
  match goal with
  | |- context [sendCommand _ ?t ?v ?s ?n ?st0] =>
      destruct (sendCommand_link t v s n st0) as (Href & Hready & Hcmd & _)
  end.
  split; [| split; rewrite Hcmd; reflexivity].
  unfold currentIsOpen. erewrite targetIsOpen_ext; [| exact Href | exact Hready].
  exact Hopen.
Qed.

Lemma Command_eq (c d : Command.t) :
  Command.speed c = Command.speed d → Command.incline c = Command.incline d → c = d.
Proof. destruct c, d. cbn. congruence. Qed.

(** X7: the two scenario loops do not depend on each other's order: a
    speed tick followed by an incline tick leaves the same tracked targets
    as the incline tick followed by the speed tick, whether the link is
    open or not. *)
Theorem ticks_commute (speed incline : Range.t) (random1 random2 : Q)
    (now1 now2 now3 now4 : Z) (st : App) :
  commandRef (inclineTick JSON_stringify incline random2 now2
                (speedTick JSON_stringify speed random1 now1 st))
  = commandRef (speedTick JSON_stringify speed random1 now4
                  (inclineTick JSON_stringify incline random2 now3 st)).
Proof.
  destruct (speedTick_link speed random1 now1 st) as (Ho1 & Hi1 & Hs1).
  destruct (inclineTick_link incline random2 now2
              (speedTick JSON_stringify speed random1 now1 st)) as (_ & Hs2 & Hi2).
  destruct (inclineTick_link incline random2 now3 st) as (Ho3 & Hs3 & Hi3).
  destruct (speedTick_link speed random1 now4
              (inclineTick JSON_stringify incline random2 now3 st)) as (_ & Hi4 & Hs4).
  apply Command_eq.
  - rewrite Hs2, Hs1, Hs4, Ho3, Hs3. reflexivity.
  - rewrite Hi2, Ho1, Hi1, Hi4, Hi3. reflexivity.
Qed.

(** X8: on an open link a speed tick and an incline tick together compute
    what [generateNextScenarioState] computes from the tracked targets
    with the same two draws. *)
Theorem ticks_compute_scenario_state (config : ScenarioConfig.t) (random1 random2 : Q)
    (now1 now2 : Z) (st : App) :
  currentIsOpen st = true →
  commandRef (inclineTick JSON_stringify (ScenarioConfig.incline config) random2 now2
                (speedTick JSON_stringify (ScenarioConfig.speed config) random1 now1 st))
  = generateNextScenarioState random1 random2 (Command.speed (commandRef st))
      (Command.incline (commandRef st)) config.
Proof.
  intros Hopen.
  destruct (speedTick_link (ScenarioConfig.speed config) random1 now1 st) as (Ho1 & Hi1 & Hs1).
  destruct (inclineTick_link (ScenarioConfig.incline config) random2 now2
              (speedTick JSON_stringify (ScenarioConfig.speed config) random1 now1 st))
    as (_ & Hs2 & Hi2).
  apply Command_eq; cbn.
  - rewrite Hs2, Hs1, Hopen. reflexivity.
  - rewrite Hi2, Ho1, Hopen, Hi1. reflexivity.
Qed.


Lemma currentIsOpen_intro (st : App) (ws : nat) (socket : WebSocket.t) :
  wsRef st = Some ws → sockets st !! ws = Some socket →
  WebSocket.readyState socket = WS_STATE_OPEN → currentIsOpen st = true.
Proof.
  intros Hws Hsocket Hopen. unfold currentIsOpen, targetIsOpen, targetWs.
  rewrite Hws. cbn. rewrite Hsocket, Hopen. reflexivity.
Qed.

Lemma sendCommand_wsStatus (type : string) (value : option Q) (socket : option nat)
    (now : Z) (st : App) :
  wsStatus (sendCommand JSON_stringify type value socket now st) = wsStatus st
  ∧ timeouts (sendCommand JSON_stringify type value socket now st) = timeouts st
  ∧ displayState (sendCommand JSON_stringify type value socket now st) = displayState st
  ∧ hasLoggedFirstMsg (sendCommand JSON_stringify type value socket now st)
    = hasLoggedFirstMsg st.
Proof.
  unfold sendCommand. destruct (targetIsOpen socket st); [| auto].
  destruct (targetWs socket st); auto.
Qed.

(** X9: on an open link a speed tick stores the next speed as the tracked
    target and hands the current socket one [SET_SPEED_NOW] command that
    carries that same value; the tracked incline and the telemetry are not
    touched. *)
Theorem speedTick_sends_tracked (speed : Range.t) (random : Q) (now : Z) (st : App)
    (ws : nat) (socket : WebSocket.t) :
  wsRef st = Some ws → sockets st !! ws = Some socket →
  WebSocket.readyState socket = WS_STATE_OPEN →
  Command.speed (commandRef (speedTick JSON_stringify speed random now st))
  = getNextValue random (Command.speed (commandRef st)) (Range.min speed)
      (Range.max speed) (Range.volatility speed) 1
  ∧ sockets (speedTick JSON_stringify speed random now st)
    = <[ws := WebSocket_send
                (JSON_stringify
                   (createProtocolMessage "SET_SPEED_NOW"
                      (Some (Command.speed
                               (commandRef
                                  (speedTick JSON_stringify speed random now st))))))
                socket]> (sockets st)
  ∧ Command.incline (commandRef (speedTick JSON_stringify speed random now st))
    = Command.incline (commandRef st)
  ∧ treadmillRef (speedTick JSON_stringify speed random now st) = treadmillRef st.
Proof.
  intros Hws Hsocket Hopen.
  pose proof (currentIsOpen_intro st ws socket Hws Hsocket Hopen) as Hcur.
  destruct (speedTick_link speed random now st) as (_ & Hincline & Hspeed).
  rewrite Hcur in Hspeed.
  split; [exact Hspeed |]. split; [| split; [exact Hincline |]].
  - rewrite Hspeed. unfold speedTick. rewrite Hcur. cbn [negb].
    match goal with
    | |- context [sendCommand _ ?t ?v None ?n ?st0] =>
        destruct (sendCommand_transmits JSON_stringify t v None n st0 ws socket)
          as [Hsent _]; [exact Hws | exact Hsocket | exact Hopen |]
    end.
    exact Hsent.
  - unfold speedTick. rewrite Hcur. cbn [negb].
    match goal with
    | |- context [sendCommand _ ?t ?v ?s ?n ?st0] =>
        destruct (sendCommand_link t v s n st0) as (_ & _ & _ & Htel)
    end.
    rewrite Htel. reflexivity.
Qed.

(** X10: when the current socket opens, the status becomes [CONNECTED]
    and the socket is handed the two bootstrap commands, [REQUEST_CONTROL]
    first and [GET_STATE] second, after whatever it had been handed. *)
Theorem opened_bootstraps (ws : nat) (socket : WebSocket.t) (now : Z) (st : App) :
  wsRef st = Some ws → sockets st !! ws = Some socket →
  sockets (step' st (now, Opened ws)) !! ws
  = Some {| WebSocket.url := WebSocket.url socket;
            WebSocket.readyState := WS_STATE_OPEN;
            WebSocket.sent :=
              WebSocket.sent socket
              ++ [JSON_stringify (createProtocolMessage "REQUEST_CONTROL" None);
                  JSON_stringify (createProtocolMessage "GET_STATE" None)];
            WebSocket.wsUrl := WebSocket.wsUrl socket |}
  ∧ wsStatus (step' st (now, Opened ws)) = CONNECTED.
Proof.
  intros Hws Hsocket. unfold step. cbn [fst snd]. rewrite Hsocket.
  unfold onopen. cbn [wsRef withSockets]. case_decide; [| contradiction].
  set (st1 := addLog _ _ _ _).
  assert (Hws1 : wsRef st1 = Some ws) by exact Hws.
  assert (Hs1 : sockets st1 !! ws = Some (setReadyState WS_STATE_OPEN socket)).
  { subst st1. cbn. rewrite list_lookup_alter_eq, Hsocket. reflexivity. }
  destruct (sendCommand_transmits JSON_stringify "REQUEST_CONTROL" None (Some ws) now st1
              ws _ eq_refl Hs1 eq_refl) as [Hsent1 _].
  set (st2 := sendCommand JSON_stringify "REQUEST_CONTROL" None (Some ws) now st1) in *.
  assert (Hs2 : sockets st2 !! ws
                = Some (WebSocket_send
                          (JSON_stringify (createProtocolMessage "REQUEST_CONTROL" None))
                          (setReadyState WS_STATE_OPEN socket))).
  { rewrite Hsent1. apply list_lookup_insert_eq. eapply lookup_lt_Some, Hs1. }
  destruct (sendCommand_transmits JSON_stringify "GET_STATE" None (Some ws) now st2
              ws _ eq_refl Hs2 eq_refl) as [Hsent2 _].
  split.
  - rewrite Hsent2. rewrite list_lookup_insert_eq.
    + unfold WebSocket_send, setReadyState. cbn -[app].
      rewrite <- app_assoc. reflexivity.
    + eapply lookup_lt_Some, Hs2.
  - destruct (sendCommand_wsStatus "GET_STATE" None (Some ws) now st2) as [-> _].
    destruct (sendCommand_wsStatus "REQUEST_CONTROL" None (Some ws) now st1) as [E _].
    fold st2 in E. rewrite E. reflexivity.
Qed.


Lemma alter_missing {A : Type} (f : A → A) (i : nat) (l : list A) :
  l !! i = None → alter f i l = l.
Proof.
  intros H. apply list_eq. intros j. destruct (decide (j = i)) as [-> | Hne].
  - rewrite list_lookup_alter_eq, H. reflexivity.
  - rewrite list_lookup_alter_ne by congruence. reflexivity.
Qed.

Lemma withSockets_same (st : App) : withSockets (sockets st) st = st.
Proof. destruct st. reflexivity. Qed.

(** X11: a notification of a socket that is not the current one changes
    nothing but that socket's ready state.  After an open notification the
    state is the one before with that socket OPEN, after a close
    notification the one before with that socket CLOSED, after an error
    notification the one before: the URL of the socket, what it was handed,
    every other socket, and status, log, timeouts and telemetry stay as they
    are. *)
Theorem superseded_notifications_ignored (ws : nat) (code now : Z) (st : App) :
  wsRef st ≠ Some ws →
  step' st (now, Opened ws)
  = withSockets (alter (setReadyState WS_STATE_OPEN) ws (sockets st)) st
  ∧ step' st (now, Closed ws code)
    = withSockets (alter (setReadyState WS_STATE_CLOSED) ws (sockets st)) st
  ∧ step' st (now, Failed ws) = st.
Proof.
  intros Hne. unfold step; cbn [fst snd].
  destruct (sockets st !! ws) as [socket |] eqn:Hsocket.
  - unfold onopen, onclose, onerror; cbn [wsRef withSockets].
    repeat split; case_decide; try contradiction; reflexivity.
  - rewrite !alter_missing by exact Hsocket. rewrite withSockets_same. auto.
Qed.

(** X12: only a close notification schedules a timeout: an elapsed
    timeout is removed and schedules nothing, and every other turn (an
    error among them) leaves the pending timeouts as they are. *)
Theorem only_close_schedules (st : App) (turn : Z * Event) :
  match turn.2 with
  | Closed _ _ => True
  | TimeoutElapsed => timeouts (step' st turn) = tail (timeouts st)
  | _ => timeouts (step' st turn) = timeouts st
  end.
Proof.
  destruct turn as [now e].
  destruct e; cbn [snd]; try exact I; handlers; cbn -[take pretty]; cases;
    try reflexivity;
    try match goal with
        | E : timeouts st = _ |- _ => rewrite E
        end; reflexivity.
Qed.

Lemma step_display (st : App) (turn : Z * Event) :
  displayState st = treadmillRef st →
  displayState (step' st turn) = treadmillRef (step' st turn).
Proof.
  destruct turn as [now e]. intros Hst.
  destruct e; handlers; cbn -[take pretty]; cases; cbn -[take pretty];
    first [reflexivity | exact Hst].
Qed.

(** X13: in every state the component reaches, the state shown by the
    interface is the telemetry held in [treadmillRef]. *)
Theorem display_mirrors_telemetry (now : Z) (trace : list (Z * Event)) :
  displayState (run' trace (initialApp now)) = treadmillRef (run' trace (initialApp now)).
Proof.
  assert (Hgen : ∀ st, displayState st = treadmillRef st →
            displayState (run' trace st) = treadmillRef (run' trace st)).
  { induction trace as [| turn trace IH]; intros st Hst; [exact Hst |].
    cbn [run fold_left]. apply IH, step_display, Hst. }
  apply Hgen. reflexivity.
Qed.

Lemma substring_length (m : nat) (s : string) :
  String.length (String.substring 0 m s) ≤ m.
Proof.
  revert s. induction m as [| m IH]; intros [| c s]; cbn; try lia.
  specialize (IH s). lia.
Qed.

Lemma substring_length_min (m : nat) (s : string) :
  String.length (String.substring 0 m s) = Nat.min m (String.length s).
Proof.
  revert s. induction m as [| m IH]; intros [| c s]; cbn; try reflexivity.
  rewrite IH. reflexivity.
Qed.

Lemma string_app_length (s t : string) :
  String.length (s +:+ t) = String.length s + String.length t.
Proof. induction s as [| c s IH]; simpl; [reflexivity | rewrite IH; reflexivity]. Qed.

Lemma substring_prefix (m : nat) (s : string) :
  String.prefix (String.substring 0 m s) s = true.
Proof.
  revert s. induction m as [| m IH]; intros [| c s]; cbn; try reflexivity.
  destruct (Ascii.ascii_dec c c) as [_ | Hne]; [apply IH | contradiction].
Qed.

(** X14: a text frame is logged only when it is the first since the last
    connection attempt.  The entry is of type [info] and its text is
    [Rx: ], the first 100 characters of the frame, and three dots (107
    characters at most), whether or not the frame parses; any later frame
    adds nothing to the log.  Either way the flag is set afterwards. *)
Theorem onmessage_logs_first_frame_only (data : string) (now : Z) (st : App) :
  hasLoggedFirstMsg (onmessage parseFloat JSON_parse data now st) = true
  ∧ logs (onmessage parseFloat JSON_parse data now st)
    = (if hasLoggedFirstMsg st then logs st
       else take 200
              ({| LogEntry.timestamp := now;
                  LogEntry.message := "Rx: " +:+ String.substring 0 100 data +:+ "...";
                  LogEntry.type := info |} :: logs st))
  ∧ String.prefix (String.substring 0 100 data) data = true
  ∧ String.length (String.substring 0 100 data) = Nat.min 100 (String.length data)
  ∧ String.length ("Rx: " +:+ String.substring 0 100 data +:+ "...") ≤ 107.
Proof.
  split; [| split; [| split; [| split]]].
  - unfold onmessage. destruct (hasLoggedFirstMsg st) eqn:Hflag;
      destruct (JSON_parse data ≫= extractUpdate parseFloat) as [[newSpeed newIncline] |];
      try destruct (bool_decide _ || bool_decide _); cbn; auto.
  - unfold onmessage. destruct (hasLoggedFirstMsg st) eqn:Hflag;
      destruct (JSON_parse data ≫= extractUpdate parseFloat) as [[newSpeed newIncline] |];
      try destruct (bool_decide _ || bool_decide _); reflexivity.
  - apply substring_prefix.
  - apply substring_length_min.
  - rewrite !string_app_length.
    pose proof (substring_length 100 data). cbn [String.length]. lia.
Qed.

(** X15: a frame that parses to something other than an object ([null],
    a number, a string, a boolean, an array) leaves the telemetry as it
    was. *)
Theorem non_object_frame_ignored (data : string) (msg : jsval) (now : Z) (st : App) :
  JSON_parse data = Some msg → (∀ m, msg ≠ JObj m) →
  treadmillRef (onmessage parseFloat JSON_parse data now st) = treadmillRef st.
Proof.
  intros Hparse Hshape. unfold onmessage. rewrite Hparse. cbn [mbind option_bind].
  destruct msg; try (destruct (hasLoggedFirstMsg st); reflexivity).
  exfalso. eapply Hshape. reflexivity.
Qed.

(** X16: an object with none of the keys the handler looks for yields
    neither a speed nor an incline. *)
Theorem unrecognised_object_yields_nothing (m : gmap string jsval) :
  Forall (λ k, m !! k = None) messageKeys →
  extractUpdate parseFloat (JObj m) = Some (None, None).
Proof.
  intros Hkeys. unfold messageKeys in Hkeys.
  repeat match goal with
         | H : Forall _ (_ :: _) |- _ =>
             apply Forall_cons in H; destruct H as [? H]
         end.
  unfold extractUpdate, rawValues, getProp.
  repeat match goal with
         | H : m !! _ = None |- _ => rewrite H; clear H
         end.
  reflexivity.
Qed.


(** X17: the commands the component sends are not read as telemetry when
    they come back: none of the four outbound messages yields a speed or
    an incline, whatever value it carries. *)
Theorem own_commands_are_not_telemetry (type : string) (value : option Q) :
  type ∈ outboundTypes →
  extractUpdate parseFloat (createProtocolMessage type value) = Some (None, None).
Proof.
  intros Hin. unfold outboundTypes in Hin.
  repeat (apply elem_of_cons in Hin; destruct Hin as [-> | Hin]);
    [destruct value; reflexivity .. |].
  apply elem_of_nil in Hin. contradiction.
Qed.

(** X18: a typed message built by [createProtocolMessage] is read back
    as the value it carries: as a speed for [SPEED] and [SET_SPEED], as
    an incline for [INCLINE] and [SET_INCLINE]. *)
Theorem typed_message_round_trip (value : Q) :
  extractUpdate parseFloat (createProtocolMessage "SPEED" (Some value))
  = Some (Some value, None)
  ∧ extractUpdate parseFloat (createProtocolMessage "SET_SPEED" (Some value))
    = Some (Some value, None)
  ∧ extractUpdate parseFloat (createProtocolMessage "INCLINE" (Some value))
    = Some (None, Some value)
  ∧ extractUpdate parseFloat (createProtocolMessage "SET_INCLINE" (Some value))
    = Some (None, Some value).
Proof. repeat split; reflexivity. Qed.

Lemma WebSocket_close_closing (socket : WebSocket.t) :
  closingOrClosed (WebSocket_close socket).
Proof.
  unfold WebSocket_close, closingOrClosed.
  destruct (Z.eqb_spec (WebSocket.readyState socket) WS_STATE_CLOSING) as [E1 | _];
    [left; exact E1 |].
  destruct (Z.eqb_spec (WebSocket.readyState socket) WS_STATE_CLOSED) as [E2 | _];
    [right; exact E2 | left; reflexivity].
Qed.

Lemma closed_current_lookup (st : App) (ws : nat) (socket : WebSocket.t) :
  othersClosing st →
  match wsRef st with
  | Some c => alter WebSocket_close c (sockets st)
  | None => sockets st
  end !! ws = Some socket →
  closingOrClosed socket.
Proof.
  intros Hothers Hlookup.
  destruct (wsRef st) as [c |] eqn:Hcur.
  - destruct (decide (ws = c)) as [-> | Hne].
    + rewrite list_lookup_alter_eq in Hlookup.
      destruct (sockets st !! c); [| discriminate].
      injection Hlookup as <-. apply WebSocket_close_closing.
    + rewrite list_lookup_alter_ne in Hlookup by congruence.
      eapply Hothers; [exact Hlookup | congruence].
  - eapply Hothers; [exact Hlookup | congruence].
Qed.

Lemma closeCurrent_fields (st : App) :
  wsRef match wsRef st with
        | Some current => withSockets (alter WebSocket_close current (sockets st)) st
        | None => st
        end = wsRef st
  ∧ sockets match wsRef st with
            | Some current => withSockets (alter WebSocket_close current (sockets st)) st
            | None => st
            end
    = match wsRef st with
      | Some current => alter WebSocket_close current (sockets st)
      | None => sockets st
      end.
Proof. destruct (wsRef st) eqn:E; cbn; rewrite ?E; split; reflexivity. Qed.

(** X19: connecting and cleaning up never leave a superseded socket
    open: if every socket but the current one is closing or closed, this
    still holds after [connectWebSocket] and after the cleanup. *)
Theorem superseded_sockets_are_closing (wsUrl : string) (now : Z) (st : App) :
  othersClosing st →
  othersClosing (connectWebSocket WebSocket_new wsUrl now st)
  ∧ othersClosing (cleanup st).
Proof.
  intros Hothers. destruct (closeCurrent_fields st) as [Href Hsockets]. split.
  - unfold connectWebSocket. destruct (alreadyConnected wsUrl st); [exact Hothers |].
    set (st0 := match wsRef st with
                | Some current =>
                    withSockets (alter WebSocket_close current (sockets st)) st
                | None => st
                end) in *.
    assert (Hlen : length (sockets st0) = length (sockets st)).
    { rewrite Hsockets. destruct (wsRef st); rewrite ?length_alter; reflexivity. }
    destruct (WebSocket_new wsUrl) as [url |];
      intros ws socket Hlookup Hne; cbn -[take] in Hlookup, Hne.
    + apply lookup_app_Some in Hlookup as [Hlookup | [Hge Hlookup]].
      * apply (closed_current_lookup st ws socket Hothers).
        rewrite <- Hsockets. exact Hlookup.
      * exfalso. apply Hne. f_equal.
        apply list_lookup_singleton_Some in Hlookup as [Hzero _]. lia.
    + rewrite Href in Hne. rewrite Hsockets in Hlookup.
      destruct (wsRef st) as [c |] eqn:Hcur.
      * rewrite list_lookup_alter_ne in Hlookup by congruence.
        eapply Hothers; [exact Hlookup | congruence].
      * eapply Hothers; [exact Hlookup | congruence].
  - unfold cleanup. intros ws socket Hlookup _.
    apply (closed_current_lookup st ws socket Hothers).
    destruct (wsRef st); exact Hlookup.
Qed.

(** X20: when the link is not open and the constructor rejects the URL,
    [connectWebSocket] ends in status [ERROR] with an error entry on top
    of the log; it creates no socket, schedules no timeout and leaves the
    link not open. *)
Theorem rejected_url_fails_without_retry (wsUrl : string) (now : Z) (st : App) :
  WebSocket_new wsUrl = None → currentIsOpen st = false →
  wsStatus (connectWebSocket WebSocket_new wsUrl now st) = ERROR
  ∧ hd_error (logs (connectWebSocket WebSocket_new wsUrl now st))
    = Some {| LogEntry.timestamp := now;
              LogEntry.message := "Invalid URL: " +:+ wsUrl;
              LogEntry.type := error |}
  ∧ wsRef (connectWebSocket WebSocket_new wsUrl now st) = wsRef st
  ∧ length (sockets (connectWebSocket WebSocket_new wsUrl now st)) = length (sockets st)
  ∧ timeouts (connectWebSocket WebSocket_new wsUrl now st) = timeouts st
  ∧ currentIsOpen (connectWebSocket WebSocket_new wsUrl now st) = false.
Proof.
  intros Hnew Hclosed.
  assert (Hguard : alreadyConnected wsUrl st = false).
  { unfold alreadyConnected. unfold currentIsOpen, targetIsOpen, targetWs in Hclosed.
    destruct (wsRef st ≫= λ ws, sockets st !! ws); [| reflexivity].
    rewrite Hclosed. apply andb_false_r. }
  unfold connectWebSocket. rewrite Hguard, Hnew.
  destruct (wsRef st) as [c |] eqn:Hcur; cbn -[take alter];
    rewrite ?Hcur, ?length_alter; repeat split; try reflexivity.
  - unfold currentIsOpen, targetIsOpen, targetWs. cbn -[alter]. rewrite Hcur.
    cbn -[alter]. rewrite list_lookup_alter_eq.
    unfold currentIsOpen, targetIsOpen, targetWs in Hclosed. rewrite Hcur in Hclosed.
    cbn in Hclosed. destruct (sockets st !! c) as [socket |]; [| reflexivity].
    cbn. unfold WebSocket_close.
    destruct (_ || _) eqn:Htest; [exact Hclosed | reflexivity].
  - unfold currentIsOpen, targetIsOpen, targetWs. cbn. rewrite Hcur. reflexivity.
Qed.

(** X22: starting the scenario sets the tracked targets to the telemetry
    last received, so that on an open link the first speed tick steps
    from the speed the machine reported. *)
Theorem scenario_picks_up_telemetry (speed : Range.t) (random : Q) (now1 now2 : Z)
    (st : App) :
  currentIsOpen st = true →
  commandRef (scenarioStart now1 st)
  = {| Command.speed := speedKmh (treadmillRef st);
       Command.incline := inclinePct (treadmillRef st) |}
  ∧ Command.speed
      (commandRef (speedTick JSON_stringify speed random now2 (scenarioStart now1 st)))
    = getNextValue random (speedKmh (treadmillRef st)) (Range.min speed)
        (Range.max speed) (Range.volatility speed) 1.
Proof.
  intros Hopen. split; [reflexivity |].
  destruct (speedTick_link speed random now2 (scenarioStart now1 st)) as (_ & _ & Hspeed).
  rewrite Hspeed.
  change (currentIsOpen (scenarioStart now1 st)) with (currentIsOpen st).
  rewrite Hopen. reflexivity.
Qed.

End LinkManagerMore.

(** X23: when the text reads as a number, [handleChange] hands on a
    configuration in which the named field of the named section is that
    number and every other field, the other section and the name are as
    before. *)
Theorem handleChange_changes_one_field (parseFloat : string → option Q)
    (section : SectionKey) (field : RangeKey) (value : string) (numVal : Q)
    (config : ScenarioConfig.t) :
  parseFloat value = Some numVal →
  ∃ config',
    handleChange parseFloat section field value config = Some config'
    ∧ getRangeField field (getSection section config') = numVal
    ∧ (∀ field', field' ≠ field →
         getRangeField field' (getSection section config')
         = getRangeField field' (getSection section config))
    ∧ (∀ section', section' ≠ section →
         getSection section' config' = getSection section' config)
    ∧ ScenarioConfig.name config' = ScenarioConfig.name config.
Proof.
  intros Hparse. unfold handleChange. rewrite Hparse. eexists.
  split; [reflexivity |].
  split; [destruct section, field; reflexivity |].
  split; [intros field' Hne; destruct section, field, field'; congruence || reflexivity |].
  split; [| destruct section; reflexivity].
  intros section' Hne. destruct section, section'; congruence || reflexivity.
Qed.

Lemma sliceLast_length {A : Type} (n : nat) (l : list A) :
  length (sliceLast n l) = Nat.min n (length l).
Proof. unfold sliceLast. rewrite length_drop. lia. Qed.

(** X24: after a chart tick the series holds at most 30 points, the new
    point last; what is dropped is the front of the old series, its
    oldest points. *)
Theorem chartTick_bounded (time : string) (st : App) (prev : list DataPoint.t) :
  length (chartTick time st prev) = Nat.min 30 (S (length prev))
  ∧ last (chartTick time st prev)
    = Some {| DataPoint.time := time;
              DataPoint.speed := speedKmh (treadmillRef st);
              DataPoint.incline := inclinePct (treadmillRef st) |}
  ∧ prev ++ [{| DataPoint.time := time;
                DataPoint.speed := speedKmh (treadmillRef st);
                DataPoint.incline := inclinePct (treadmillRef st) |}]
    = take (S (length prev) - 30) prev ++ chartTick time st prev.
Proof.
  unfold chartTick. cbv zeta.
  set (point := {| DataPoint.time := time |}).
  split; [| split].
  - rewrite sliceLast_length, length_app. cbn [length]. lia.
  - unfold sliceLast. rewrite length_app. cbn [length].
    rewrite drop_app_le by lia. rewrite last_app. reflexivity.
  - unfold sliceLast. rewrite length_app. cbn [length].
    replace (length prev + 1 - 30) with (S (length prev) - 30) by lia.
    rewrite drop_app_le by lia. rewrite app_assoc, take_drop. reflexivity.
Qed.

Lemma recordingStep_invariant (recording : Recording) (turn : Z * App * RecordingEvent) :
  (∀ i frame, recordedDataRef recording !! i = Some frame →
     PoseFrameData.frameId frame = i) →
  recordedCount recording
  = length (recordedDataRef recording) - length (recordedDataRef recording) mod 10 →
  (∀ i frame, recordedDataRef (recordingStep recording turn) !! i = Some frame →
     PoseFrameData.frameId frame = i)
  ∧ recordedCount (recordingStep recording turn)
    = length (recordedDataRef (recordingStep recording turn))
      - length (recordedDataRef (recordingStep recording turn)) mod 10.
Proof.
  intros Hids Hcount. destruct turn as [[now st] e].
  destruct e as [isRecording poseLandmarks | confirmed]; unfold recordingStep; cbn [fst snd].
  - unfold handlePoseDetected. destruct isRecording; [| split; assumption].
    cbv zeta.
    assert (Hnew : ∀ i frame,
              (recordedDataRef recording
               ++ [{| PoseFrameData.timestamp := now;
                      PoseFrameData.frameId := length (recordedDataRef recording);
                      PoseFrameData.treadmillState := treadmillRef st;
                      PoseFrameData.landmarks := poseLandmarks |}]) !! i = Some frame →
              PoseFrameData.frameId frame = i).
    { intros i frame Hlookup.
      apply lookup_app_Some in Hlookup as [Hlookup | [Hge Hlookup]];
        [apply Hids, Hlookup |].
      apply list_lookup_singleton_Some in Hlookup as [Hzero <-]. cbn. lia. }
    match goal with
    | |- context [if ?b then _ else _] => destruct b eqn:Hten
    end; cbn [recordedDataRef recordedCount]; (split; [exact Hnew |]).
    + apply Nat.eqb_eq in Hten. rewrite Hten. lia.
    + apply Nat.eqb_neq in Hten. rewrite length_app in *. cbn [length] in *. rewrite Hcount.
      pose proof (Nat.div_mod_eq (length (recordedDataRef recording)) 10).
      pose proof (Nat.div_mod_eq (length (recordedDataRef recording) + 1) 10).
      pose proof (Nat.mod_upper_bound (length (recordedDataRef recording)) 10).
      pose proof (Nat.mod_upper_bound (length (recordedDataRef recording) + 1) 10).
      lia.
  - unfold clearSession. destruct confirmed; cbn; [| split; assumption].
    split; [intros i frame H; discriminate | reflexivity].
Qed.

(** X25: whatever is recorded and cleared, the recorded frames are
    numbered by their position, the displayed count is the number of
    frames rounded down to a multiple of ten, and so lags the true count
    by less than ten. *)
Theorem recorded_frames_are_numbered (trace : list (Z * App * RecordingEvent)) :
  (∀ i frame, recordedDataRef (record trace) !! i = Some frame →
     PoseFrameData.frameId frame = i)
  ∧ recordedCount (record trace)
    = length (recordedDataRef (record trace))
      - length (recordedDataRef (record trace)) mod 10
  ∧ length (recordedDataRef (record trace)) - recordedCount (record trace) < 10.
Proof.
  assert (Hgen : ∀ recording,
            (∀ i frame, recordedDataRef recording !! i = Some frame →
               PoseFrameData.frameId frame = i) →
            recordedCount recording
            = length (recordedDataRef recording)
              - length (recordedDataRef recording) mod 10 →
            (∀ i frame,
               recordedDataRef (fold_left recordingStep trace recording) !! i
               = Some frame → PoseFrameData.frameId frame = i)
            ∧ recordedCount (fold_left recordingStep trace recording)
              = length (recordedDataRef (fold_left recordingStep trace recording))
                - length (recordedDataRef (fold_left recordingStep trace recording))
                  mod 10).
  { induction trace as [| turn trace IH]; intros recording Hids Hcount;
      [split; assumption |].
    cbn [fold_left].
    destruct (recordingStep_invariant recording turn Hids Hcount) as [Hids' Hcount'].
    apply IH; assumption. }
  destruct (Hgen initialRecording) as [Hids Hcount];
    [intros i frame H; discriminate | reflexivity |].
  unfold record. split; [exact Hids |]. split; [exact Hcount |].
  rewrite Hcount.
  pose proof (Nat.mod_upper_bound
                (length (recordedDataRef (fold_left recordingStep trace initialRecording)))
                10).
  pose proof (Nat.Div0.mod_le
                (length (recordedDataRef (fold_left recordingStep trace initialRecording)))
                10).
  lia.
Qed.

(* ===================================================================== *)
(** ** The rest of the code on the concrete host *)
(* ===================================================================== *)

Lemma ticks_compute_scenario_state_witness :
  commandRef
    (inclineTick JSON_stringify_message (ScenarioConfig.incline initialScenarioConfig)
       (1 # 4) 6
       (speedTick JSON_stringify_message (ScenarioConfig.speed initialScenarioConfig)
          (3 # 4) 5 linkUp))
  = generateNextScenarioState (3 # 4) (1 # 4) (Command.speed (commandRef linkUp))
      (Command.incline (commandRef linkUp)) initialScenarioConfig.
Proof.
  apply (ticks_compute_scenario_state JSON_stringify_message initialScenarioConfig
           (3 # 4) (1 # 4) 5 6 linkUp).
  reflexivity.
Defined.

Lemma speedTick_sends_tracked_witness :
  Command.speed
    (commandRef
       (speedTick JSON_stringify_message (ScenarioConfig.speed initialScenarioConfig)
          (3 # 4) 5 linkUp))
  = getNextValue (3 # 4) (Command.speed (commandRef linkUp)) 2 8 (1 # 2) 1.
Proof.
  assert (Hws : wsRef linkUp = Some 0) by reflexivity.
  assert (Hsocket : sockets linkUp !! 0 = Some linkUpSocket) by reflexivity.
  assert (Hopen : WebSocket.readyState linkUpSocket = WS_STATE_OPEN) by reflexivity.
  exact (proj1 (speedTick_sends_tracked JSON_stringify_message
                  (ScenarioConfig.speed initialScenarioConfig) (3 # 4) 5 linkUp 0
                  linkUpSocket Hws Hsocket Hopen)).
Defined.

Lemma opened_bootstraps_witness :
  sockets (runOnHost [(2%Z, Opened 0)] linkConnecting) !! 0 = Some linkUpSocket
  ∧ wsStatus (runOnHost [(2%Z, Opened 0)] linkConnecting) = CONNECTED.
Proof.
  assert (Hws : wsRef linkConnecting = Some 0) by reflexivity.
  assert (Hsocket : sockets linkConnecting !! 0
                    = Some {| WebSocket.url := sampleUrl;
                              WebSocket.readyState := WS_STATE_CONNECTING;
                              WebSocket.sent := [];
                              WebSocket.wsUrl := sampleUrl |}) by reflexivity.
  exact (opened_bootstraps parseFloat_decimal (JSON_parse_table frames)
           JSON_stringify_message WebSocket_new_ws 0 _ 2 linkConnecting Hws Hsocket).
Defined.

Lemma superseded_notifications_ignored_witness :
  runOnHost [(9%Z, Opened 0)] linkReconnected
  = withSockets (alter (setReadyState WS_STATE_OPEN) 0 (sockets linkReconnected))
      linkReconnected
  ∧ runOnHost [(9%Z, Closed 0 1006)] linkReconnected
    = withSockets (alter (setReadyState WS_STATE_CLOSED) 0 (sockets linkReconnected))
        linkReconnected
  ∧ runOnHost [(9%Z, Failed 0)] linkReconnected = linkReconnected.
Proof.
  assert (Hne : wsRef linkReconnected ≠ Some 0) by (vm_compute; discriminate).
  exact (superseded_notifications_ignored parseFloat_decimal (JSON_parse_table frames)
           JSON_stringify_message WebSocket_new_ws 0 1006 9 linkReconnected Hne).
Defined.

Lemma non_object_frame_ignored_witness :
  treadmillRef
    (onmessage parseFloat_decimal (JSON_parse_table [("[1,2]", JArr [JNum 1; JNum 2])])
       "[1,2]" 7 linkUp)
  = treadmillRef linkUp.
Proof.
  apply (non_object_frame_ignored parseFloat_decimal
           (JSON_parse_table [("[1,2]", JArr [JNum 1; JNum 2])]) "[1,2]"
           (JArr [JNum 1; JNum 2]) 7 linkUp).
  - reflexivity.
  - intros m. discriminate.
Defined.

Lemma unrecognised_object_yields_nothing_witness :
  extractUpdate parseFloat_decimal (JObj (<["foo" := JNum 1]> ∅)) = Some (None, None).
Proof.
  apply (unrecognised_object_yields_nothing parseFloat_decimal (<["foo" := JNum 1]> ∅)).
  unfold messageKeys. repeat (apply Forall_cons; split; [reflexivity |]).
  apply Forall_nil. exact I.
Defined.

Lemma own_commands_are_not_telemetry_witness :
  extractUpdate parseFloat_decimal
    (createProtocolMessage "SET_SPEED_NOW" (Some (42 # 10)))
  = Some (None, None).
Proof.
  apply (own_commands_are_not_telemetry parseFloat_decimal "SET_SPEED_NOW"
           (Some (42 # 10))).
  unfold outboundTypes.
  apply list_elem_of_further, list_elem_of_further, list_elem_of_here.
Defined.

Lemma superseded_sockets_are_closing_witness :
  othersClosing (connectWebSocket WebSocket_new_ws "ws://localhost:9000/ws" 9
                   linkReconnected)
  ∧ othersClosing (cleanup linkReconnected).
Proof.
  apply (superseded_sockets_are_closing WebSocket_new_ws "ws://localhost:9000/ws" 9
           linkReconnected).
  intros ws socket Hlookup Hne.
  destruct ws as [| [| ws]]; vm_compute in Hlookup.
  - injection Hlookup as <-. right. reflexivity.
  - exfalso. apply Hne. reflexivity.
  - discriminate.
Defined.

Lemma rejected_url_fails_without_retry_witness :
  wsStatus (connectWebSocket WebSocket_new_ws "http://localhost:8000" 1 (initialApp 0))
  = ERROR
  ∧ timeouts (connectWebSocket WebSocket_new_ws "http://localhost:8000" 1 (initialApp 0))
    = [].
Proof.
  assert (Hnew : WebSocket_new_ws "http://localhost:8000" = None) by reflexivity.
  assert (Hclosed : currentIsOpen (initialApp 0) = false) by reflexivity.
  destruct (rejected_url_fails_without_retry WebSocket_new_ws "http://localhost:8000" 1
              (initialApp 0) Hnew Hclosed) as (Hstatus & _ & _ & _ & Htimeouts & _).
  exact (conj Hstatus Htimeouts).
Defined.

Lemma scenario_picks_up_telemetry_witness :
  Command.speed
    (commandRef
       (speedTick JSON_stringify_message (ScenarioConfig.speed initialScenarioConfig)
          (3 # 4) 9 (scenarioStart 8 (runOnHost telemetryTrace (initialApp 0)))))
  = getNextValue (3 # 4) (21 # 4) 2 8 (1 # 2) 1.
Proof.
  assert (Hopen : currentIsOpen (runOnHost telemetryTrace (initialApp 0)) = true)
    by reflexivity.
  exact (proj2 (scenario_picks_up_telemetry JSON_stringify_message
                  (ScenarioConfig.speed initialScenarioConfig) (3 # 4) 8 9
                  (runOnHost telemetryTrace (initialApp 0)) Hopen)).
Defined.

Lemma handleChange_changes_one_field_witness :
  ∃ config',
    handleChange parseFloat_decimal SectionIncline KeyMax "7.5" initialScenarioConfig
    = Some config'
    ∧ getRangeField KeyMax (getSection SectionIncline config') = 15 # 2
    ∧ (∀ field', field' ≠ KeyMax →
         getRangeField field' (getSection SectionIncline config')
         = getRangeField field' (getSection SectionIncline initialScenarioConfig))
    ∧ (∀ section', section' ≠ SectionIncline →
         getSection section' config' = getSection section' initialScenarioConfig)
    ∧ ScenarioConfig.name config' = ScenarioConfig.name initialScenarioConfig.
Proof.
  apply (handleChange_changes_one_field parseFloat_decimal SectionIncline KeyMax "7.5"
           (15 # 2) initialScenarioConfig).
  reflexivity.
Defined.

(** The recording on a short run: twelve frames while recording, one frame
    while not recording. *)
Example record_twelve_frames :
  length (recordedDataRef
            (record (replicate 12 (1%Z, linkUp, PoseDetected true None)
                     ++ [(2%Z, linkUp, PoseDetected false None)]))) = 12
  ∧ recordedCount
      (record (replicate 12 (1%Z, linkUp, PoseDetected true None)
               ++ [(2%Z, linkUp, PoseDetected false None)])) = 10.
Proof. split; reflexivity. Qed.
